(** * AdaptiveFilter-LMS: a normalized least-mean-square adaptive FIR filter

    A shallow embedding of [C/AdaptiveFilter.c] (the circular-index engine),
    of [Matlab/AdaptiveFir.m] (the copy-and-shift prototype) and of the test
    routine [C/src/AdaptiveFilterTest.c], with the properties of the engine
    stated against them.

    The C functions are embedded once, over an abstract scalar type with the
    five operations the code uses on [double]; the embedding is then read
    - at [R], for the statements made in exact real arithmetic, and
    - at [float] (IEEE 754 binary64, the kernel's primitive floats), for what
      a [double] does where the reals say nothing (division by zero) and for
      the convergence test, which is run as it stands.
    The prototype is embedded at [R].

    Arrays are lists and their indices [nat]; [unsigned int] and [int] are
    taken to be 32 bits wide, and what the code does with them at the edge of
    their range is written out (the increment of the circular index, the
    conversion of [Length - 1] to the [int] loop counter).  An array access
    outside its array is undefined behaviour in C; the embedded functions
    return [None] there. *)

From Stdlib Require Import Reals Lra ZArith Floats Uint63 String.
From stdpp Require Import base tactics option list.

Close Scope R_scope.
Open Scope nat_scope.

(** ** Scalars *)

(** The operations of C's [double] that the engine uses. *)
Class Scalar (T : Type) : Type := {
  s_zero : T;
  s_add : T → T → T;
  s_sub : T → T → T;
  s_mul : T → T → T;
  s_div : T → T → T
}.

Declare Scope scalar_scope.
Delimit Scope scalar_scope with S.
Notation "x + y" := (s_add x y) : scalar_scope.
Notation "x - y" := (s_sub x y) : scalar_scope.
Notation "x * y" := (s_mul x y) : scalar_scope.
Notation "x / y" := (s_div x y) : scalar_scope.

(** Exact real arithmetic. *)
#[export] Instance R_Scalar : Scalar R := {
  s_zero := 0%R;
  s_add := Rplus;
  s_sub := Rminus;
  s_mul := Rmult;
  s_div := Rdiv
}.

(** IEEE 754 binary64, round to nearest even: C's [double]. *)
#[export] Instance float_Scalar : Scalar float := {
  s_zero := 0%float;
  s_add := PrimFloat.add;
  s_sub := PrimFloat.sub;
  s_mul := PrimFloat.mul;
  s_div := PrimFloat.div
}.

(** ** Machine integers *)

Definition INT_MAX : Z := 2147483647.
Definition UINT_MAX : Z := 4294967295.

(** [idx++] on an [unsigned int]: modulo [UINT_MAX + 1]. *)
Definition uint_incr (idx : nat) : nat :=
  Z.to_nat ((Z.of_nat idx + 1) mod (UINT_MAX + 1)).

(** [(int) n] for an [unsigned int] [n]: a value above [INT_MAX] wraps to a
    negative one (the conversion is implementation-defined there; this is
    what the compilers in use define). *)
Definition int_of_uint (n : Z) : Z :=
  if (n <=? INT_MAX)%Z then n else (n - (UINT_MAX + 1))%Z.

(** [for (i = length - 1; i >= 0; i--)] with [int i] and [unsigned int
    length]: the subtraction is unsigned, its result is converted to [int],
    and the body runs for [i], [i - 1], ..., 0, that is [i + 1] times when
    [i] is not negative and not at all otherwise. *)
Definition countdown (length : nat) : nat :=
  Z.to_nat (int_of_uint ((Z.of_nat length - 1) mod (UINT_MAX + 1)) + 1).

Arguments uint_incr : simpl never.
Arguments countdown : simpl never.

(** ** The engine's state: [AfData] of AdaptiveFilter.h *)

Record AfData (T : Type) : Type := mkAfData {
  StepSize : T;          (* adaptive filter step size *)
  Regularization : T;    (* regularization constant *)
  Length : nat;          (* length of filter *)
  pBuffer : list T;      (* input buffer *)
  BufferIdx : nat;       (* circular index into input buffer *)
  pWeights : list T;     (* adaptive filter weights *)
  Error : T              (* output error (desired - output) state *)
}.
Arguments mkAfData {T}.
Arguments StepSize {T}.
Arguments Regularization {T}.
Arguments Length {T}.
Arguments pBuffer {T}.
Arguments BufferIdx {T}.
Arguments pWeights {T}.
Arguments Error {T}.

Section Engine.
Context {T : Type} `{Scalar T}.
Implicit Types (pData : AfData T) (input desired error output : T).

(** Assignments to the mutable fields. *)
Definition set_pBuffer (b : list T) pData : AfData T :=
  mkAfData (StepSize pData) (Regularization pData) (Length pData)
           b (BufferIdx pData) (pWeights pData) (Error pData).
Definition set_BufferIdx (i : nat) pData : AfData T :=
  mkAfData (StepSize pData) (Regularization pData) (Length pData)
           (pBuffer pData) i (pWeights pData) (Error pData).
Definition set_pWeights (w : list T) pData : AfData T :=
  mkAfData (StepSize pData) (Regularization pData) (Length pData)
           (pBuffer pData) (BufferIdx pData) w (Error pData).
Definition set_Error (e : T) pData : AfData T :=
  mkAfData (StepSize pData) (Regularization pData) (Length pData)
           (pBuffer pData) (BufferIdx pData) (pWeights pData) e.

(** [if (pData->BufferIdx >= pData->Length) pData->BufferIdx = 0;] *)
Definition wrap (length idx : nat) : nat :=
  if decide (length ≤ idx) then 0 else idx.
Definition wrap_index pData : AfData T :=
  set_BufferIdx (wrap (Length pData) (BufferIdx pData)) pData.

(** [SquaredNorm]: [for (i = 0; i < length; i++) output += pInput[i]*pInput[i];]
    [n] is the number of iterations left, [i] the loop counter. *)
Fixpoint SquaredNorm_loop (pInput : list T) (n i : nat) (output : T) : option T :=
  match n with
  | 0 => Some output
  | S n' =>
      x ← pInput !! i;
      SquaredNorm_loop pInput n' (S i) (output + x * x)%S
  end.

Definition SquaredNorm (pInput : list T) (length : nat) : option T :=
  SquaredNorm_loop pInput length 0 s_zero.

(** The loop of [AdaptWeights], [for (i = Length - 1; i >= 0; i--)]: the
    argument is [i + 1], the number of passes left, so that the body below
    runs at counter [i]. *)
Fixpoint AdaptWeights_loop (normStepSize : T) (n : nat) pData : option (AfData T) :=
  match n with
  | 0 => Some pData
  | S i =>
      let pData := wrap_index pData in
      w ← pWeights pData !! i;
      x ← pBuffer pData !! BufferIdx pData;
      AdaptWeights_loop normStepSize i
        (set_BufferIdx (uint_incr (BufferIdx pData))
           (set_pWeights (<[i := (w + normStepSize * Error pData * x)%S]> (pWeights pData))
              pData))
  end.

Definition AdaptWeights pData : option (AfData T) :=
  sn ← SquaredNorm (pBuffer pData) (Length pData);
  let normStepSize := (StepSize pData / (Regularization pData + sn))%S in
  AdaptWeights_loop normStepSize (countdown (Length pData)) pData.

(** The loop of [Filter], same counter convention. *)
Fixpoint Filter_loop (n : nat) (output : T) pData : option (T * AfData T) :=
  match n with
  | 0 => Some (output, pData)
  | S i =>
      let pData := wrap_index pData in
      w ← pWeights pData !! i;
      x ← pBuffer pData !! BufferIdx pData;
      Filter_loop i (output + w * x)%S
        (set_BufferIdx (uint_incr (BufferIdx pData)) pData)
  end.

(** The first half of [Filter]: wrap the index, overwrite the oldest input
    with the new one, advance the index. *)
Definition Filter_insert input pData : option (AfData T) :=
  let pData := wrap_index pData in
  _ ← pBuffer pData !! BufferIdx pData;
  Some (set_BufferIdx (uint_incr (BufferIdx pData))
          (set_pBuffer (<[BufferIdx pData := input]> (pBuffer pData)) pData)).

Definition Filter input pData : option (T * AfData T) :=
  pData ← Filter_insert input pData;
  Filter_loop (countdown (Length pData)) s_zero pData.

Definition AdaptiveFilterRun input desired pData : option (T * AfData T) :=
  '(output, pData) ← Filter input pData;
  let pData := set_Error (desired - output)%S pData in
  pData ← AdaptWeights pData;
  Some (output, pData).

Definition AdaptiveFilterRunErrorIn input error pData : option (T * AfData T) :=
  let pData := set_Error error pData in
  pData ← AdaptWeights pData;
  '(output, pData) ← Filter input pData;
  Some (output, pData).
End Engine.

(** ** The engine seen from outside

    Nothing in this section is code of the repository.  These are the terms
    in which the properties of the engine are stated: when a state is well
    formed, which window of samples it holds, what an inner product, an
    energy and an NLMS update are, which states the functions are shown to
    return, and an engine driven by a sequence of calls. *)

Section View.
Context {T : Type} `{Scalar T}.
Implicit Types (pData : AfData T).

(** What the caller sets up before the first call (the arrays of
    AdaptiveFilterTest.c have [NUM_TAPS] elements each): at least one tap,
    no more taps than the [int] loop counter can count, and both arrays of
    [Length] elements. *)
Definition taps_ok (length : nat) : Prop :=
  1 ≤ length ∧ (Z.of_nat length ≤ INT_MAX + 1)%Z.
Definition wf pData : Prop :=
  taps_ok (Length pData) ∧
  length (pBuffer pData) = Length pData ∧
  length (pWeights pData) = Length pData.

(** The buffer in the order in which the loops of [Filter] and
    [AdaptWeights] read it: from the wrapped index upwards, then from slot 0
    up to the index.  That is from the oldest sample to the newest. *)
Definition rot (length idx : nat) (buf : list T) : list T :=
  drop (wrap length idx) buf ++ take (wrap length idx) buf.
Definition oldest_first pData : list T :=
  rot (Length pData) (BufferIdx pData) (pBuffer pData).

(** The history window: index 0 is the newest sample. *)
Definition window pData : list T := reverse (oldest_first pData).

(** One advance of the index: wrap, use, increment. *)
Definition advance (length idx : nat) : nat := uint_incr (wrap length idx).

(** The inner product in the order in which [Filter] accumulates it: from
    the last pair to the first. *)
Definition dot (w x : list T) : T :=
  foldr (λ wx acc, acc + wx.1 * wx.2)%S s_zero (zip w x).

(** The sum of squares in the order in which [SquaredNorm] accumulates it:
    from slot 0 upwards. *)
Definition energy (buf : list T) : T :=
  foldl (λ acc x, acc + x * x)%S s_zero buf.

(** The normalized least-mean-square update of one weight. *)
Definition nlms (stepSize regularization sn err : T) (w x : T) : T :=
  (w + stepSize / (regularization + sn) * err * x)%S.

(** The state after the first half of [Filter]. *)
Definition after_insert (input : T) pData : AfData T :=
  let idx := wrap (Length pData) (BufferIdx pData) in
  set_BufferIdx (S idx) (set_pBuffer (<[idx := input]> (pBuffer pData)) pData).

(** The state after [AdaptWeights]. *)
Definition after_adapt pData : AfData T :=
  set_BufferIdx
    (if decide (1 ≤ BufferIdx pData ≤ Length pData) then BufferIdx pData else Length pData)
    (set_pWeights
       (zip_with (nlms (StepSize pData) (Regularization pData) (energy (pBuffer pData)) (Error pData))
          (pWeights pData) (window pData)) pData).

(** Per-sample calls, and an engine driven by a sequence of them.  What a
    caller can observe after a call: the output, [Error], the weights. *)
Inductive call : Type :=
  | CallRun (input desired : T)
  | CallRunErrorIn (input error : T).

Definition call_input (c : call) : T :=
  match c with CallRun input _ => input | CallRunErrorIn input _ => input end.

Definition step (c : call) pData : option (T * AfData T) :=
  match c with
  | CallRun input desired => AdaptiveFilterRun input desired pData
  | CallRunErrorIn input error => AdaptiveFilterRunErrorIn input error pData
  end.

Definition observation : Type := T * T * list T.

Fixpoint drive (cs : list call) pData : option (list observation * AfData T) :=
  match cs with
  | [] => Some ([], pData)
  | c :: cs =>
      '(output, pData) ← step c pData;
      '(obs, pData') ← drive cs pData;
      Some ((output, Error pData, pWeights pData) :: obs, pData')
  end.
End View.
Arguments call : clear implicits.
Arguments observation : clear implicits.

(** ** Sums of reals *)

(** The sum of a list of reals, and the inner product of two lists: the sum
    of [w_i * x_i] over the indices [i]. *)
Definition sum_R (l : list R) : R := foldr Rplus 0%R l.
Definition inner (w x : list R) : R := sum_R (zip_with Rmult w x).

(** ** The Matlab prototype: [AdaptiveFir.m] *)

Module Matlab.

(** A two-dimensional double array: its size and its elements, column by
    column. *)
Record array : Type := mkArray { rows : nat; cols : nat; elems : list R }.

Definition empty : array := mkArray 0 0 [].
Definition scalar (x : R) : array := mkArray 1 1 [x].
Definition column (l : list R) : array := mkArray (length l) 1 l.
Definition zeros (m n : nat) : array := mkArray m n (replicate (m * n) 0%R).
Definition numel (a : array) : nat := rows a * cols a.

(** [isvector(A)]: the size is 1-by-N or N-by-1, for an N that may be 0. *)
Definition isvector (a : array) : bool := (rows a =? 1) || (cols a =? 1).
(** [isscalar(A)]: the size is 1-by-1. *)
Definition isscalar (a : array) : bool := (rows a =? 1) && (cols a =? 1).
(** [A(:)]: all elements as one column. *)
Definition colon (a : array) : array := mkArray (numel a) 1 (elems a).

(** The properties of the class. *)
Record AdaptiveFir : Type := mkAdaptiveFir {
  Buffer : array;     (* FIR filter state *)
  Weights : array;    (* FIR filter coefficients *)
  StepSize : array;   (* adaptation rate *)
  Error : array       (* sample difference between output and desired signals *)
}.

Definition set_Buffer (b : array) (AF : AdaptiveFir) : AdaptiveFir :=
  mkAdaptiveFir b (Weights AF) (StepSize AF) (Error AF).
Definition set_Weights (w : array) (AF : AdaptiveFir) : AdaptiveFir :=
  mkAdaptiveFir (Buffer AF) w (StepSize AF) (Error AF).
Definition set_Error (e : array) (AF : AdaptiveFir) : AdaptiveFir :=
  mkAdaptiveFir (Buffer AF) (Weights AF) (StepSize AF) e.

(** A failed [assert] carries its message. *)
Inductive result (A : Type) : Type :=
  | Ok (a : A)
  | AssertionFailed (msg : string).
Arguments Ok {A}.
Arguments AssertionFailed {A}.

(** The class constructor, [AdaptiveFir(Weights,StepSize)].  A property that
    is never assigned is [[]]. *)
Definition new (Weights StepSize : array) : result AdaptiveFir :=
  if negb (isvector Weights) then AssertionFailed "Weights must be a vector."
  else if negb (isscalar StepSize) then AssertionFailed "StepSize must be a scalar."
  else Ok (mkAdaptiveFir (zeros (rows Weights) (cols Weights)) (colon Weights)
             StepSize empty).

(** The methods are embedded for the shapes of a running filter: [Buffer]
    and [Weights] N-by-1 with the same N, [StepSize] and [Error] 1-by-1, the
    arguments real scalars.  On other shapes they return [None]. *)
Definition as_column (a : array) : option (list R) :=
  if decide (cols a = 1 ∧ rows a = length (elems a)) then Some (elems a) else None.
Definition as_scalar (a : array) : option R :=
  match a with mkArray 1 1 [x] => Some x | _ => None end.

(** [AF.Buffer = [Input; AF.Buffer(1:end-1)]; Output = AF.Weights'*AF.Buffer;] *)
Definition RunFilter (AF : AdaptiveFir) (Input : R) : option (R * AdaptiveFir) :=
  buffer ← as_column (Buffer AF);
  weights ← as_column (Weights AF);
  let buffer := Input :: removelast buffer in
  if decide (length weights = length buffer)
  then Some (inner weights buffer, set_Buffer (column buffer) AF)
  else None.

Definition epsilon : R := 1e-10%R.

(** Normalized least-mean-square filter weight update. *)
Definition NLMS (AF : AdaptiveFir) : option AdaptiveFir :=
  buffer ← as_column (Buffer AF);
  weights ← as_column (Weights AF);
  stepSize ← as_scalar (StepSize AF);
  error ← as_scalar (Error AF);
  let NormStepSize := (stepSize / (epsilon + sum_R (map (λ x, x ^ 2) buffer)))%R in
  if decide (length weights = length buffer)
  then Some (set_Weights
               (column (zip_with Rplus weights
                          (map (λ x, NormStepSize * error * x)%R buffer))) AF)
  else None.

Definition Run (AF : AdaptiveFir) (Input Desired : R) : option (R * AdaptiveFir) :=
  '(Output, AF) ← RunFilter AF Input;
  let AF := set_Error (scalar (Desired - Output)%R) AF in
  AF ← NLMS AF;
  Some (Output, AF).

(** Alternative Run method using external Error. *)
Definition RunErrorInput (AF : AdaptiveFir) (Input Error : R) : option (R * AdaptiveFir) :=
  let AF := set_Error (scalar Error) AF in
  AF ← NLMS AF;
  RunFilter AF Input.

(** The prototype driven by the same calls as the engine, with the same
    observations. *)
Definition step (c : call R) (AF : AdaptiveFir) : option (R * AdaptiveFir) :=
  match c with
  | CallRun Input Desired => Run AF Input Desired
  | CallRunErrorIn Input Error => RunErrorInput AF Input Error
  end.

Fixpoint drive (cs : list (call R)) (AF : AdaptiveFir)
  : option (list (observation R) * AdaptiveFir) :=
  match cs with
  | [] => Some ([], AF)
  | c :: cs =>
      '(Output, AF) ← step c AF;
      error ← as_scalar (Error AF);
      weights ← as_column (Weights AF);
      '(obs, AF') ← drive cs AF;
      Some ((Output, error, weights) :: obs, AF')
  end.

End Matlab.

(** The two implementations hold the same abstract state: the same weights,
    the same window, the same step size, and the engine's regularization is
    the prototype's constant. *)
Definition same_state (c : AfData R) (m : Matlab.AdaptiveFir) : Prop :=
  wf c ∧
  Regularization c = Matlab.epsilon ∧
  Matlab.Buffer m = Matlab.column (window c) ∧
  Matlab.Weights m = Matlab.column (pWeights c) ∧
  Matlab.StepSize m = Matlab.scalar (StepSize c).

(** ** The test routine: [AdaptiveFilterTest.c] *)

Module AdaptiveFilterTest.

(** Primary test parameters.  A decimal constant denotes the nearest binary64
    value, as it does in C. *)
#[warnings="-inexact-float"]
Definition STEPSIZE : float := 0.3%float.
#[warnings="-inexact-float"]
Definition REGULARIZATION : float := 1.0e-10%float.
Definition NUM_TAPS : nat := 30.
Definition ITERATIONS : nat := 5000.
#[warnings="-inexact-float"]
Definition DB_EPSILON : float := 1.0e-40%float.
Definition RAND_SEED : Z := 824.


(** [(double) n], for an [int] that is not negative. *)
Definition double_of_int (n : Z) : float := PrimFloat.of_uint63 (Uint63.of_Z n).

(** The test state: the statics of the file, and the state of the C
    library's generator. *)
Record TestState : Type := mkTestState {
  next : Z;
  testWeights : list float;
  testBuffer : list float;
  testBufferIdx : nat;
  squaredErrorPower : float;    (* DB_EPSILON + Error^2 *)
  misalignmentPower : float;    (* DB_EPSILON + misalignment *)
  Adata : AfData float
}.

Definition set_next (n : Z) (t : TestState) : TestState :=
  mkTestState n (testWeights t) (testBuffer t) (testBufferIdx t)
    (squaredErrorPower t) (misalignmentPower t) (Adata t).
Definition set_testWeights (w : list float) (t : TestState) : TestState :=
  mkTestState (next t) w (testBuffer t) (testBufferIdx t)
    (squaredErrorPower t) (misalignmentPower t) (Adata t).
Definition set_testBuffer (b : list float) (t : TestState) : TestState :=
  mkTestState (next t) (testWeights t) b (testBufferIdx t)
    (squaredErrorPower t) (misalignmentPower t) (Adata t).
Definition set_testBufferIdx (i : nat) (t : TestState) : TestState :=
  mkTestState (next t) (testWeights t) (testBuffer t) i
    (squaredErrorPower t) (misalignmentPower t) (Adata t).
Definition set_metrics (se mis : float) (t : TestState) : TestState :=
  mkTestState (next t) (testWeights t) (testBuffer t) (testBufferIdx t)
    se mis (Adata t).
Definition set_Adata (a : AfData float) (t : TestState) : TestState :=
  mkTestState (next t) (testWeights t) (testBuffer t) (testBufferIdx t)
    (squaredErrorPower t) (misalignmentPower t) a.

Section Harness.
(** [rand] and [RAND_MAX] are the C library's: one step of the generator, from
    its state to the value returned and the new state. *)
Variable rand : Z → Z * Z.
Variable RAND_MAX : Z.

(** [( 2 * (double)rand() / (double)RAND_MAX ) - 1] *)
Definition random_sample (t : TestState) : float * TestState :=
  let '(r, n) := rand (next t) in
  ((2 * double_of_int r / double_of_int RAND_MAX) - 1, set_next n t)%float.

(** [for (i = 0; i < NUM_TAPS; i++) testWeights[i] = ...]: [n] iterations
    left, at counter [i]. *)
Fixpoint InitWeights_loop (n i : nat) (t : TestState) : option TestState :=
  match n with
  | 0 => Some t
  | S n' =>
      let '(x, t) := random_sample t in
      if decide (i < length (testWeights t))
      then InitWeights_loop n' (S i) (set_testWeights (<[i := x]> (testWeights t)) t)
      else None
  end.
Definition InitWeights (t : TestState) : option TestState :=
  InitWeights_loop NUM_TAPS 0 t.

(** The fixed test filter: the loop, [for (i = NUM_TAPS - 1; i >= 0; i--)],
    with the counter convention of the engine's loops ([NUM_TAPS] is an
    [int] constant: the counter starts at 29). *)
Fixpoint Filter_loop (n : nat) (output : float) (t : TestState)
  : option (float * TestState) :=
  match n with
  | 0 => Some (output, t)
  | S i =>
      let t := if decide (NUM_TAPS ≤ testBufferIdx t) then set_testBufferIdx 0 t else t in
      w ← testWeights t !! i;
      x ← testBuffer t !! testBufferIdx t;
      Filter_loop i (output + w * x)%float
        (set_testBufferIdx (uint_incr (testBufferIdx t)) t)
  end.

Definition Filter (input : float) (t : TestState) : option (float * TestState) :=
  let t := if decide (NUM_TAPS ≤ testBufferIdx t) then set_testBufferIdx 0 t else t in
  _ ← testBuffer t !! testBufferIdx t;
  let t := set_testBufferIdx (uint_incr (testBufferIdx t))
             (set_testBuffer (<[testBufferIdx t := input]> (testBuffer t)) t) in
  Filter_loop NUM_TAPS 0%float t.

(** [ComputeMisalignment]: [n] iterations left, at counter [i]. *)
Fixpoint ComputeMisalignment_loop (n i : nat) (diffSqrdNorm testSqrdNorm : float)
    (t : TestState) : option float :=
  match n with
  | 0 => Some (diffSqrdNorm / testSqrdNorm)%float
  | S n' =>
      tw ← testWeights t !! i;
      w ← pWeights (Adata t) !! i;
      let difference := (tw - w)%float in
      ComputeMisalignment_loop n' (S i)
        (diffSqrdNorm + difference * difference)%float
        (testSqrdNorm + tw * tw)%float t
  end.
Definition ComputeMisalignment (t : TestState) : option float :=
  ComputeMisalignment_loop NUM_TAPS 0 0%float 0%float t.

(** The loop of [AdaptiveFilterTestRun], without the printing. *)
Fixpoint AdaptiveFilterTestRun_loop (n : nat) (t : TestState) : option TestState :=
  match n with
  | 0 => Some t
  | S n' =>
      let '(input, t) := random_sample t in
      '(desired, t) ← Filter input t;
      '(output, a) ← AdaptiveFilterRun input desired (Adata t);
      let t := set_Adata a t in
      mis ← ComputeMisalignment t;
      let t := set_metrics (DB_EPSILON + Error a * Error a)%float
                           (DB_EPSILON + mis)%float t in
      AdaptiveFilterTestRun_loop n' t
  end.

(** The statics as the file initializes them. *)
Definition initial : TestState :=
  mkTestState 1
    (replicate NUM_TAPS 0%float) (replicate NUM_TAPS 0%float) 0 0%float 0%float
    (mkAfData STEPSIZE REGULARIZATION NUM_TAPS
       (replicate NUM_TAPS 0%float) 0 (replicate NUM_TAPS 0%float) 0%float).

(** [srand(RAND_SEED); InitWeights(); for (i = 0; i < ITERATIONS; i++) ...] *)
Definition AdaptiveFilterTestRun : option TestState :=
  t ← InitWeights (set_next RAND_SEED initial);
  AdaptiveFilterTestRun_loop ITERATIONS t.

End Harness.

(** The generator of the BSD C library, on which README's expected output
    was produced: Park and Miller's minimal standard,
    [x = 16807 * x mod (2^31 - 1)], computed without overflow as in the
    library's [do_rand], with [RAND_MAX = 0x7fffffff]. *)
Definition bsd_rand (ctx : Z) : Z * Z :=
  let ctx := if (ctx =? 0)%Z then 123459876%Z else ctx in
  let hi := (ctx / 127773)%Z in
  let lo := (ctx mod 127773)%Z in
  let x := (16807 * lo - 2836 * hi)%Z in
  let x := if (x <? 0)%Z then (x + 0x7fffffff)%Z else x in
  ((x mod (0x7fffffff + 1))%Z, x).
Definition bsd_RAND_MAX : Z := 0x7fffffff.


End AdaptiveFilterTest.

(** ** Views for the further properties *)

(** The squared distance between two weight vectors: the numerator of the
    misalignment that [ComputeMisalignment] of the test accumulates. *)
Definition sqdist (a b : list R) : R :=
  inner (zip_with Rminus a b) (zip_with Rminus a b).

(** The calls that the loop of the test makes when the desired signal comes
    from a fixed filter [target] fed with the same inputs: each input is run
    with the response of [target] to the window that holds it. *)
Fixpoint reference_calls (target win inputs : list R) : list (call R) :=
  match inputs with
  | [] => []
  | x :: inputs =>
      let win := x :: take (length win - 1) win in
      CallRun x (inner target win) :: reference_calls target win inputs
  end.

(** The fixed test filter of AdaptiveFilterTest.c as an engine state: the
    statics [testWeights], [testBuffer] and [testBufferIdx] in the fields
    that the engine's [Filter] uses, for [NUM_TAPS] taps. *)
Definition test_filter (t : AdaptiveFilterTest.TestState) : AfData float :=
  mkAfData AdaptiveFilterTest.STEPSIZE AdaptiveFilterTest.REGULARIZATION
    AdaptiveFilterTest.NUM_TAPS
    (AdaptiveFilterTest.testBuffer t) (AdaptiveFilterTest.testBufferIdx t)
    (AdaptiveFilterTest.testWeights t) 0%float.

(** The test and the engine in step: both filters over [NUM_TAPS] taps, the
    same samples in both buffers, at the same index. *)
Definition in_step (t : AdaptiveFilterTest.TestState) : Prop :=
  wf (AdaptiveFilterTest.Adata t) ∧
  Length (AdaptiveFilterTest.Adata t) = AdaptiveFilterTest.NUM_TAPS ∧
  length (AdaptiveFilterTest.testWeights t) = AdaptiveFilterTest.NUM_TAPS ∧
  AdaptiveFilterTest.testBuffer t = pBuffer (AdaptiveFilterTest.Adata t) ∧
  AdaptiveFilterTest.testBufferIdx t = BufferIdx (AdaptiveFilterTest.Adata t).
(** The engine, its calls and its observations with every signal multiplied
    by [c]: the samples in the buffer, the inputs, the desired samples and
    the errors by [c], the regularization, which is added to a sum of
    squares, by [c * c]. *)
Definition scaled (c : R) (s : AfData R) : AfData R :=
  mkAfData (StepSize s) (c * c * Regularization s)%R (Length s)
    (Rmult c <$> pBuffer s) (BufferIdx s) (pWeights s) (c * Error s)%R.
Definition scaled_call (c : R) (k : call R) : call R :=
  match k with
  | CallRun input desired => CallRun (c * input)%R (c * desired)%R
  | CallRunErrorIn input error => CallRunErrorIn (c * input)%R (c * error)%R
  end.
Definition scaled_observation (c : R) (o : observation R) : observation R :=
  (c * o.1.1, c * o.1.2, o.2)%R.
(** ** The Matlab test: [AdaptiveFirTest.m] *)

Module AdaptiveFirTest.

Definition Iterations : nat := 5000.
Definition StepSize : R := 0.3%R.
Definition DbEpsilon : R := 1e-40%R.

(** [norm(v)]: the 2-norm of a vector. *)
Definition norm (v : list R) : R := R_sqrt.sqrt (sum_R (map (λ x, x ^ 2)%R v)).

(** [filter(b,1,x)]: the FIR filter [b] run over [x] from a zero state,
    [y(n) = b(1)*x(n) + b(2)*x(n-1) + ...]; [z] is the delay line, the
    newest sample first. *)
Fixpoint filter_from (b z x : list R) : list R :=
  match x with
  | [] => []
  | xn :: x =>
      let z := xn :: removelast z in
      inner b z :: filter_from b z x
  end.
Definition filter (b x : list R) : list R :=
  filter_from b (replicate (length b) 0%R) x.

Section Run.
(** [Weights] is [rand(30,1)*2 - 1], drawn once; [noise] below is
    [2 * rand(Iterations,1) - 1]: the test is embedded for whatever [rand]
    returns. *)
Variable Weights : list R.

(** [for j = 1:Iterations]: one pass for each sample of [noise], which has
    [Iterations] of them, and of [desired].  The results are [adaptiveOut]
    and [weightError]. *)
Fixpoint Run_loop (af : Matlab.AdaptiveFir) (noise desired : list R)
  : option (list R * list R) :=
  match noise, desired with
  | x :: noise, d :: desired =>
      '(out, af) ← Matlab.Run af x d;
      w ← Matlab.as_column (Matlab.Weights af);
      if decide (length w = length Weights) then
        '(adaptiveOut, weightError) ← Run_loop af noise desired;
        Some (out :: adaptiveOut,
              (norm (zip_with Rminus Weights w) ^ 2)%R :: weightError)
      else None
  | _, _ => Some ([], [])
  end.

(** [Run], up to the display: [misalignment] and [squaredError]. *)
Definition Run (noise : list R) : option (list R * list R) :=
  let desired := filter Weights noise in
  match Matlab.new (Matlab.zeros (length Weights) 1) (Matlab.scalar StepSize) with
  | Matlab.Ok af =>
      '(adaptiveOut, weightError) ← Run_loop af noise desired;
      Some (map (λ we, we / norm Weights ^ 2)%R weightError,
            zip_with (λ d y, (d - y) ^ 2)%R desired adaptiveOut)
  | Matlab.AssertionFailed _ => None
  end.
End Run.

End AdaptiveFirTest.

(** ** Sample states *)

(** Three taps, the index in the middle of the buffer: slot 1 holds the
    oldest sample, slot 0 the newest. *)
Definition sample_R : AfData R :=
  mkAfData 0.5%R 0%R 3 [1; 2; 3]%R 1 [0.5; 0.25; 0.125]%R 0%R.

Definition sample_float : AfData float :=
  mkAfData 0.5%float 0%float 3 [1; 2; 3]%float 1 [0.5; 0.25; 0.125]%float 0%float.

(** A fresh engine of [n] taps: zero buffer, zero weights, index 0. *)
Definition fresh {T} `{Scalar T} (stepSize regularization : T) (n : nat) : AfData T :=
  mkAfData stepSize regularization n (replicate n s_zero) 0 (replicate n s_zero) s_zero.

(** An engine about to update on a zero denominator: regularization 0 and
    an all-zero window. *)
Definition degenerate (stepSize error : float) (idx : nat) (weights : list float)
  : AfData float :=
  mkAfData stepSize 0%float (length weights)
    (replicate (length weights) 0%float) idx weights error.

(** ** The embedding at work *)

(** The loop counter: 30 passes for the 30 taps of the test, and none for a
    [Length] of 0, where [Length - 1] is [UINT_MAX] and the counter starts
    at -1. *)
Example countdown_sample :
  countdown 30 = 30 ∧ countdown 1 = 1 ∧ countdown 0 = 0 ∧
  int_of_uint UINT_MAX = (-1)%Z ∧ uint_incr 29 = 30.
Proof. split_and!; reflexivity. Qed.

(** [AdaptiveFilterRun(4, 1, &sample)], traced by hand on the C code.
    [Filter] writes 4 into slot 1 and moves the index to 2; the loop reads
    slot 2 (3, the oldest, against weight 2), slot 0 (1, against weight 1)
    and slot 1 (4, the newest, against weight 0):
    [0.125*3 + 0.25*1 + 0.5*4 = 2.625].  [Error = 1 - 2.625 = -1.625],
    [SquaredNorm = 1 + 16 + 9 = 26], and weight 0 becomes
    [0.5 + 0.5/26 * -1.625 * 4 = 0.375]. *)
Example Run_sample :
  AdaptiveFilterRun 4%float 1%float sample_float =
    Some (2.625%float,
          mkAfData 0.5%float 0%float 3 [1; 4; 3]%float 2
            [0.375; 0.21875; 0.03125]%float (-1.625)%float).
Proof. vm_compute. reflexivity. Qed.

(** On the same state [AdaptiveFilterRunErrorIn] updates the weights with
    the window [1; 3; 2] it finds ([SquaredNorm = 14]) before it inserts 4:
    weight 0 becomes [0.5 + 0.5/14 * 1 * 1]. *)
Example RunErrorIn_sample :
  ∃ output s',
    AdaptiveFilterRunErrorIn 4%float 1%float sample_float = Some (output, s') ∧
    pBuffer s' = [1; 4; 3]%float ∧ BufferIdx s' = 2 ∧ Error s' = 1%float ∧
    pWeights s' !! 0 = Some (0.5 + 0.5 / 14 * 1 * 1)%float ∧
    window s' = [4; 1; 3]%float.
Proof. eexists _, _. split_and!; vm_compute; reflexivity. Qed.

(** A zero signal away from the zero denominator: with the regularization
    of the test the weights of a [double] engine stay as they are. *)
Example zero_signal_sample :
  ∃ obs s',
    drive [CallRun 0 1; CallRunErrorIn 0 (-2); CallRun 0 3.5]%float
      (mkAfData AdaptiveFilterTest.STEPSIZE AdaptiveFilterTest.REGULARIZATION 2
         [0; 0]%float 0 [0.25; 4]%float 0%float) = Some (obs, s') ∧
    pWeights s' = [0.25; 4]%float.
Proof. eexists _, _. split; vm_compute; reflexivity. Qed.

(** The constructor of the prototype. *)
Example new_sample :
  Matlab.new (Matlab.zeros 3 1) (Matlab.scalar 0.3%R) =
    Matlab.Ok (Matlab.mkAdaptiveFir (Matlab.zeros 3 1) (Matlab.zeros 3 1)
                 (Matlab.scalar 0.3%R) Matlab.empty) ∧
  Matlab.new Matlab.empty (Matlab.scalar 0.3%R) =
    Matlab.AssertionFailed "Weights must be a vector." ∧
  Matlab.new (Matlab.zeros 3 1) (Matlab.zeros 1 2) =
    Matlab.AssertionFailed "StepSize must be a scalar.".
Proof. split_and!; reflexivity. Qed.

(** ** Facts about the loops, for any scalar type *)

Ltac solve_taps := unfold taps_ok, INT_MAX; cbn; lia.

Section Loops.
Context {T : Type} `{Scalar T}.
Implicit Types (pData s : AfData T) (buf : list T).

Lemma uint_incr_small idx : (Z.of_nat idx < UINT_MAX)%Z → uint_incr idx = S idx.
Proof.
  unfold uint_incr, UINT_MAX. intros Hidx. rewrite Z.mod_small by lia. lia.
Qed.

(** With a number of taps in range the loops run [Length] times. *)
Lemma countdown_taps L : taps_ok L → countdown L = L.
Proof.
  unfold taps_ok, countdown, int_of_uint, INT_MAX, UINT_MAX. intros [HL Hmax].
  rewrite Z.mod_small by lia.
  destruct (Z.leb_spec (Z.of_nat L - 1) 2147483647); lia.
Qed.

Lemma wrap_lt L idx : 1 ≤ L → wrap L idx < L.
Proof. unfold wrap. case_decide; lia. Qed.

Lemma wrap_id L idx : idx < L → wrap L idx = idx.
Proof. unfold wrap. case_decide; lia. Qed.

Lemma wrap_wrap L idx : wrap L (wrap L idx) = wrap L idx.
Proof. unfold wrap. repeat case_decide; lia. Qed.

Lemma wrap_cases L idx :
  (L ≤ idx ∧ wrap L idx = 0) ∨ (idx < L ∧ wrap L idx = idx).
Proof. unfold wrap. case_decide; [left|right]; split; lia. Qed.

(** Reading one sample moves it from the front of the reading order to its
    end. *)
Lemma rot_step L idx buf x :
  length buf = L → idx < L → buf !! idx = Some x →
  rot L idx buf = x :: (drop (S idx) buf ++ take idx buf) ∧
  rot L (S idx) buf = (drop (S idx) buf ++ take idx buf) ++ [x].
Proof.
  intros Hlen Hlt Hx.
  unfold rot. rewrite (wrap_id L idx) by done. split.
  - by rewrite (drop_S _ _ _ Hx).
  - unfold wrap. case_decide.
    + assert (S idx = L) as <- by lia.
      rewrite drop_0, take_0, app_nil_r, drop_ge, app_nil_l by lia.
      rewrite <- (take_S_r _ _ _ Hx). by rewrite take_ge by lia.
    + by rewrite (take_S_r _ _ _ Hx), app_assoc.
Qed.

Lemma length_rot L idx buf : length (rot L idx buf) = length buf.
Proof. unfold rot. rewrite length_app, length_drop, length_take. lia. Qed.

Lemma rot_wrap L idx buf : rot L (wrap L idx) buf = rot L idx buf.
Proof. unfold rot. by rewrite wrap_wrap. Qed.
Lemma set_BufferIdx_same s : set_BufferIdx (BufferIdx s) s = s.
Proof. by destruct s. Qed.

(** *** The index *)

Lemma advance_wrap L idx : advance L (wrap L idx) = advance L idx.
Proof. unfold advance. by rewrite wrap_wrap. Qed.

Lemma iter_advance_wrap L n idx :
  1 ≤ n → Nat.iter n (advance L) (wrap L idx) = Nat.iter n (advance L) idx.
Proof.
  destruct n as [|n]; [lia|]. intros _.
  by rewrite !Nat.iter_succ_r, advance_wrap.
Qed.

Lemma advance_taps L idx : taps_ok L → advance L idx = S (wrap L idx).
Proof.
  intros [HL Hmax]. unfold advance. apply uint_incr_small.
  pose proof (wrap_lt L idx HL). unfold INT_MAX, UINT_MAX in *. lia.
Qed.

Lemma iter_advance_below L n idx :
  taps_ok L → idx + n ≤ L → Nat.iter n (advance L) idx = idx + n.
Proof.
  intros Htaps. induction n as [|n IH]; intros Hle; simpl; [lia|].
  rewrite IH, advance_taps by (done || lia). rewrite wrap_id by lia. lia.
Qed.

(** [Length] advances bring the index back: to itself when it is in
    [1..Length], and to [Length] from 0 (or from beyond [Length]), where the
    next wrap reads it as 0 again. *)
Lemma iter_advance_full L idx :
  taps_ok L →
  Nat.iter L (advance L) idx = if decide (1 ≤ idx ≤ L) then idx else L.
Proof.
  intros Htaps. pose proof Htaps as [HL _].
  rewrite <- (iter_advance_wrap L L idx) by done.
  pose proof (wrap_lt L idx HL) as Hc.
  replace (Nat.iter L (advance L) (wrap L idx))
    with (Nat.iter (wrap L idx + (L - wrap L idx)) (advance L) (wrap L idx))
    by (f_equal; lia).
  rewrite Nat.iter_add, (iter_advance_below L (L - wrap L idx)) by (done || lia).
  replace (wrap L idx + (L - wrap L idx)) with L by lia.
  destruct (wrap_cases L idx) as [[Hge ->]|[Hlt ->]].
  - case_decide; simpl; lia.
  - destruct idx as [|idx].
    + by rewrite decide_False by lia.
    + rewrite Nat.iter_succ_r.
      assert (advance L L = 1) as ->
        by (rewrite advance_taps by done; unfold wrap; by rewrite decide_True by lia).
      rewrite iter_advance_below by (done || lia).
      case_decide; lia.
Qed.
(** *** The loops *)

(** What one pass of a loop body sees: a weight at counter [i], the sample
    under the wrapped index, and the rest of the reading order. *)
Lemma loop_body_reads s i :
  taps_ok (Length s) → length (pBuffer s) = Length s → i < length (pWeights s) →
  ∃ w x r,
    pWeights s !! i = Some w ∧
    pBuffer s !! wrap (Length s) (BufferIdx s) = Some x ∧
    take (S i) (pWeights s) = take i (pWeights s) ++ [w] ∧
    oldest_first s = x :: r ∧
    rot (Length s) (advance (Length s) (BufferIdx s)) (pBuffer s) = r ++ [x] ∧
    length r = Length s - 1.
Proof.
  intros Htaps Hbuf Hi. pose proof Htaps as [HL _]. rewrite advance_taps by done.
  destruct (lookup_lt_is_Some_2 (pWeights s) i) as [w Hw]; [done|].
  pose proof (wrap_lt (Length s) (BufferIdx s) HL) as Hc.
  destruct (lookup_lt_is_Some_2 (pBuffer s) (wrap (Length s) (BufferIdx s)))
    as [x Hx]; [lia|].
  destruct (rot_step _ _ _ _ Hbuf Hc Hx) as (Hr1 & Hr2).
  eexists w, x, _. repeat split; try done.
  - by apply take_S_r.
  - unfold oldest_first. by rewrite <- rot_wrap.
  - pose proof (length_rot (Length s) (wrap (Length s) (BufferIdx s)) (pBuffer s)) as Hl.
    rewrite Hr1 in Hl. simpl in Hl. lia.
Qed.

Lemma Filter_loop_spec n : ∀ output s,
  taps_ok (Length s) → length (pBuffer s) = Length s →
  n ≤ length (pWeights s) → n ≤ Length s →
  Filter_loop n output s =
    Some (foldl (λ acc wx, acc + wx.1 * wx.2)%S output
            (zip (reverse (take n (pWeights s))) (take n (oldest_first s))),
          set_BufferIdx (Nat.iter n (advance (Length s)) (BufferIdx s)) s).
Proof.
  induction n as [|i IH]; intros output s HL Hbuf Hw Hn.
  - simpl. by rewrite set_BufferIdx_same.
  - destruct (loop_body_reads s i) as (w & x & r & Hwi & Hx & Htk & Hr1 & Hr2 & Hlr);
      [done..|].
    rewrite Nat.iter_succ_r, Htk, Hr1, reverse_snoc.
    cbn -[Nat.iter]. rewrite Hwi, Hx. cbn -[Nat.iter].
    fold (advance (Length s) (BufferIdx s)).
    rewrite IH by (cbn; done || lia). unfold oldest_first. cbn -[Nat.iter].
    by rewrite Hr2, take_app_le by lia.
Qed.
Lemma AdaptWeights_loop_spec normStepSize n : ∀ s,
  taps_ok (Length s) → length (pBuffer s) = Length s →
  n ≤ length (pWeights s) → n ≤ Length s →
  AdaptWeights_loop normStepSize n s =
    Some (set_BufferIdx (Nat.iter n (advance (Length s)) (BufferIdx s))
            (set_pWeights
               (zip_with (λ w x, w + normStepSize * Error s * x)%S
                  (take n (pWeights s)) (reverse (take n (oldest_first s)))
                ++ drop n (pWeights s)) s)).
Proof.
  induction n as [|i IH]; intros s HL Hbuf Hw Hn.
  - simpl. rewrite drop_0. by destruct s.
  - destruct (loop_body_reads s i) as (w & x & r & Hwi & Hx & Htk & Hr1 & Hr2 & Hlr);
      [done..|].
    rewrite Nat.iter_succ_r, Htk, Hr1.
    change (take (S i) (x :: r)) with (x :: take i r).
    rewrite reverse_cons, zip_with_app, <- app_assoc
      by (rewrite length_reverse, !length_take; lia).
    cbn -[Nat.iter]. rewrite Hwi, Hx. cbn -[Nat.iter].
    fold (advance (Length s) (BufferIdx s)).
    rewrite IH by (cbn; rewrite ?length_insert; done || lia).
    unfold oldest_first. cbn -[Nat.iter].
    rewrite Hr2, take_app_le, take_insert_ge, drop_insert_ge by lia.
    by rewrite Nat.sub_diag, (drop_S _ _ _ Hwi).
Qed.

Lemma SquaredNorm_loop_spec buf n : ∀ i output,
  i + n ≤ length buf →
  SquaredNorm_loop buf n i output =
    Some (foldl (λ acc x, acc + x * x)%S output (take n (drop i buf))).
Proof.
  induction n as [|n IH]; intros i output Hle; [done|].
  destruct (lookup_lt_is_Some_2 buf i) as [x Hx]; [lia|].
  cbn [SquaredNorm_loop]. rewrite Hx. cbn.
  rewrite IH by lia. by rewrite (drop_S _ _ _ Hx).
Qed.

Lemma SquaredNorm_spec buf :
  SquaredNorm buf (length buf) = Some (energy buf).
Proof.
  unfold SquaredNorm. rewrite SquaredNorm_loop_spec by lia.
  by rewrite drop_0, take_ge.
Qed.
(** *** The functions *)

Lemma wf_after_insert input s : wf s → wf (after_insert input s).
Proof. unfold wf, after_insert. cbn. by rewrite length_insert. Qed.

Lemma length_window s : length (window s) = length (pBuffer s).
Proof. unfold window, oldest_first. by rewrite length_reverse, length_rot. Qed.

Lemma wf_after_adapt s : wf s → wf (after_adapt s).
Proof.
  unfold wf, after_adapt. cbn. intros (? & ? & ?).
  rewrite length_zip_with, length_window. split_and!; [done|lia..].
Qed.

Lemma Filter_insert_spec input s :
  wf s → Filter_insert input s = Some (after_insert input s).
Proof.
  intros (Htaps & Hbuf & _). pose proof Htaps as [HL _].
  unfold Filter_insert. cbn.
  pose proof (wrap_lt (Length s) (BufferIdx s) HL) as Hc.
  destruct (lookup_lt_is_Some_2 (pBuffer s) (wrap (Length s) (BufferIdx s)))
    as [x Hx]; [lia|].
  rewrite Hx. cbn. fold (advance (Length s) (BufferIdx s)).
  by rewrite advance_taps.
Qed.

(** The new sample enters at the front of the window; the oldest leaves. *)
Lemma window_after_insert input s :
  wf s →
  window (after_insert input s) = input :: take (Length s - 1) (window s).
Proof.
  intros ([HL _] & Hbuf & _).
  pose proof (wrap_lt (Length s) (BufferIdx s) HL) as Hc.
  destruct (lookup_lt_is_Some_2 (pBuffer s) (wrap (Length s) (BufferIdx s)))
    as [x Hx]; [lia|].
  destruct (rot_step _ _ _ _ Hbuf Hc Hx) as (Hr1 & _).
  destruct (rot_step (Length s) (wrap (Length s) (BufferIdx s))
              (<[wrap (Length s) (BufferIdx s) := input]> (pBuffer s)) input)
    as (_ & Hr2).
  { by rewrite length_insert. } { done. }
  { apply list_lookup_insert_eq. lia. }
  rewrite drop_insert_lt, take_insert_ge in Hr2 by lia.
  unfold window, oldest_first. cbn. rewrite Hr2, <- rot_wrap, Hr1.
  rewrite reverse_snoc, reverse_cons. f_equal.
  rewrite take_app_length'; [done|].
  rewrite length_reverse, length_app, length_drop, length_take. lia.
Qed.

Lemma foldl_zip_reverse {A B} (f : A → B * B → A) (a : A) (l k : list B) :
  length l = length k →
  foldl f a (zip (reverse l) (reverse k)) = foldr (flip f) a (zip l k).
Proof.
  revert k a. induction l as [|x l IH]; intros [|y k] a Hlen; try done.
  rewrite !reverse_cons, zip_with_app by (rewrite !length_reverse; simpl in *; lia).
  rewrite foldl_app. cbn. f_equal. apply IH. simpl in *. lia.
Qed.

Lemma Filter_spec input s :
  wf s →
  Filter input s =
    Some (dot (pWeights s) (window (after_insert input s)), after_insert input s).
Proof.
  intros Hwf. pose proof (wf_after_insert input s Hwf) as (Htaps & Hbuf & Hw).
  unfold Filter. rewrite Filter_insert_spec by done. cbn [mbind option_bind].
  rewrite countdown_taps, Filter_loop_spec by (done || lia).
  rewrite iter_advance_full by done.
  rewrite !take_ge by (rewrite ?length_rot; unfold oldest_first; rewrite ?length_rot; lia).
  f_equal. f_equal.
  - unfold dot, window. rewrite <- (reverse_involutive (oldest_first _)) at 1.
    rewrite foldl_zip_reverse; [done|].
    rewrite length_reverse. unfold oldest_first. rewrite length_rot. cbn in *. lia.
  - destruct Hwf as ([HL' _] & _).
    pose proof (wrap_lt (Length s) (BufferIdx s) HL').
    cbn. rewrite decide_True by lia. done.
Qed.

Lemma AdaptWeights_spec s : wf s → AdaptWeights s = Some (after_adapt s).
Proof.
  intros (Htaps & Hbuf & Hw). unfold AdaptWeights.
  rewrite <- Hbuf at 1. rewrite SquaredNorm_spec. cbn [mbind option_bind].
  rewrite countdown_taps, AdaptWeights_loop_spec by (done || lia).
  rewrite iter_advance_full by done.
  rewrite !take_ge, drop_ge, app_nil_r
    by (unfold oldest_first; rewrite ?length_rot; lia).
  done.
Qed.

(** [AdaptWeights] leaves the window as it found it. *)
Lemma window_after_adapt s : 1 ≤ Length s → window (after_adapt s) = window s.
Proof.
  intros HL. unfold window, oldest_first, rot, after_adapt. cbn.
  case_decide; [done|].
  destruct (wrap_cases (Length s) (Length s)) as [[_ ->]|[? _]]; [|lia].
  destruct (wrap_cases (Length s) (BufferIdx s)) as [[_ ->]|[? ->]]; [done|].
  by replace (BufferIdx s) with 0 by lia.
Qed.
End Loops.

(** ** Facts about the calls, for any scalar type *)

Section Calls.
Context {T : Type} `{Scalar T}.
Implicit Types (s : AfData T) (c : call T).

Lemma wf_set_Error e s : wf s → wf (set_Error e s).
Proof. done. Qed.

Lemma Run_spec input desired s :
  wf s →
  let s1 := after_insert input s in
  let output := dot (pWeights s) (window s1) in
  AdaptiveFilterRun input desired s =
    Some (output, after_adapt (set_Error (desired - output)%S s1)).
Proof.
  intros Hwf s1 output. unfold AdaptiveFilterRun.
  rewrite Filter_spec by done. cbn [mbind option_bind].
  rewrite AdaptWeights_spec; [done|].
  by apply wf_set_Error, wf_after_insert.
Qed.

Lemma RunErrorIn_spec input error s :
  wf s →
  let s1 := after_adapt (set_Error error s) in
  AdaptiveFilterRunErrorIn input error s =
    Some (dot (pWeights s1) (window (after_insert input s1)), after_insert input s1).
Proof.
  intros Hwf s1. unfold AdaptiveFilterRunErrorIn.
  rewrite AdaptWeights_spec by done. cbn [mbind option_bind].
  rewrite Filter_spec; [done|].
  by apply wf_after_adapt, wf_set_Error.
Qed.

(** A call on a well-formed state returns, keeps the state well formed and
    the parameters as they were, and moves the window by one sample. *)
Lemma step_spec c s :
  wf s →
  ∃ output s',
    step c s = Some (output, s') ∧ wf s' ∧
    Length s' = Length s ∧ StepSize s' = StepSize s ∧
    Regularization s' = Regularization s ∧
    window s' = call_input c :: take (Length s - 1) (window s).
Proof.
  intros Hwf. pose proof Hwf as ([HL _] & _).
  destruct c as [input desired|input error]; cbn [step call_input].
  - rewrite Run_spec by done. eexists _, _. split; [done|].
    split; [by apply wf_after_adapt, wf_set_Error, wf_after_insert|].
    split_and!; try done. rewrite window_after_adapt by done.
    by apply window_after_insert.
  - rewrite RunErrorIn_spec by done. eexists _, _. split; [done|].
    split; [by apply wf_after_insert, wf_after_adapt, wf_set_Error|].
    split_and!; try done.
    rewrite window_after_insert by (by apply wf_after_adapt, wf_set_Error).
    cbn. by rewrite window_after_adapt by done.
Qed.

Lemma take_app_take {A} n m (l k : list A) :
  n ≤ length l + m → take n (l ++ take m k) = take n (l ++ k).
Proof.
  intros Hle. rewrite !take_app, take_take. do 2 f_equal. lia.
Qed.

(** After any sequence of calls the window holds their inputs, newest
    first, then what is left of the window it started from. *)
Lemma drive_window cs : ∀ s,
  wf s →
  ∃ obs s',
    drive cs s = Some (obs, s') ∧ wf s' ∧ Length s' = Length s ∧
    length obs = length cs ∧
    window s' = take (Length s) (reverse (call_input <$> cs) ++ window s).
Proof.
  induction cs as [|c cs IH]; intros s Hwf.
  - exists [], s. split_and!; try done. cbn.
    rewrite take_ge; [done|]. destruct Hwf as (_ & Hbuf & _).
    rewrite length_window. lia.
  - destruct (step_spec c s Hwf) as (output & s1 & Hstep & Hwf1 & HL1 & _ & _ & Hwin1).
    destruct (IH s1 Hwf1) as (obs & s' & Hdrive & Hwf' & HL' & Hlen & Hwin').
    cbn [drive]. rewrite Hstep. cbn [mbind option_bind]. rewrite Hdrive.
    cbn [mbind option_bind].
    eexists _, s'. split_and!; [done|done|lia|cbn; lia|].
    rewrite Hwin', Hwin1, HL1, fmap_cons, reverse_cons.
    rewrite (cons_middle (call_input c)), app_assoc.
    destruct Hwf as ([HL _] & _).
    apply take_app_take. rewrite length_app. cbn. lia.
Qed.
End Calls.

(** ** Exact real arithmetic *)

Section Reals.
Implicit Types (s : AfData R) (buf : list R) (a b : R).

Lemma sum_R_app (l k : list R) : sum_R (l ++ k) = (sum_R l + sum_R k)%R.
Proof.
  unfold sum_R. induction l as [|y l IH]; cbn [app foldr]; lra.
Qed.

Lemma inner_cons a b (w x : list R) : inner (a :: w) (b :: x) = (a * b + inner w x)%R.
Proof. done. Qed.

Lemma inner_app (w1 w2 x1 x2 : list R) :
  length w1 = length x1 →
  inner (w1 ++ w2) (x1 ++ x2) = (inner w1 x1 + inner w2 x2)%R.
Proof.
  intros Hlen. unfold inner. by rewrite zip_with_app, sum_R_app by done.
Qed.

Lemma inner_reverse (w x : list R) :
  length w = length x → inner (reverse w) (reverse x) = inner w x.
Proof.
  revert x. induction w as [|a w IH]; intros [|b x] Hlen; try done.
  rewrite !reverse_cons, inner_app by (rewrite !length_reverse; cbn in *; lia).
  rewrite IH by (cbn in *; lia). rewrite inner_cons. unfold inner, sum_R. cbn. lra.
Qed.

(** The accumulation order of [Filter] does not matter in the reals. *)
Lemma dot_inner (w x : list R) : dot w x = inner w x.
Proof.
  unfold dot. revert x.
  induction w as [|a w IH]; intros [|b x]; try done.
  cbn [zip zip_with foldr]. rewrite IH, inner_cons. cbn. lra.
Qed.

Lemma foldl_energy buf : ∀ a,
  foldl (λ acc y, acc + y * y)%S a buf = (a + inner buf buf)%R.
Proof.
  induction buf as [|x buf IH]; intros a; cbn [foldl].
  - unfold inner, sum_R. cbn. lra.
  - rewrite IH, inner_cons. cbn. lra.
Qed.

(** Nor does the order of [SquaredNorm]: the energy is the squared norm of
    the window. *)
Lemma energy_window s :
  energy (pBuffer s) = inner (window s) (window s).
Proof.
  unfold energy. rewrite foldl_energy.
  unfold window, oldest_first, rot.
  rewrite inner_reverse, inner_app by done.
  rewrite <- (take_drop (wrap (Length s) (BufferIdx s)) (pBuffer s)) at 1 2.
  rewrite inner_app by done. cbn. lra.
Qed.

(** C1.  [AdaptiveFilterRun] filters, then adapts.  On a well-formed engine
    the call returns, and: the input is inserted first, at the front of the
    window, the oldest sample leaving; the output is the inner product of the
    weights as they were before the call with that new window, weight [i]
    against the sample [i] steps old; [Error] becomes [desired - output]; the
    weights are then updated by the NLMS rule with that error and that same
    window, which is also the window the call leaves behind. *)
Theorem Run_filters_then_adapts s (input desired : R) :
  wf s →
  ∃ output s',
    AdaptiveFilterRun input desired s = Some (output, s') ∧
    let win := input :: take (Length s - 1) (window s) in
    (∃ s1, Filter_insert input s = Some s1 ∧ window s1 = win ∧
           pWeights s1 = pWeights s) ∧
    output = inner (pWeights s) win ∧
    Error s' = (desired - inner (pWeights s) win)%R ∧
    pWeights s' =
      zip_with (λ w x, w + StepSize s / (Regularization s + inner win win)
                           * (desired - output) * x)%R
        (pWeights s) win ∧
    window s' = win.
Proof.
  intros Hwf. pose proof Hwf as ([HL _] & _).
  pose proof (wf_after_insert input s Hwf) as Hwf1.
  pose proof (window_after_insert input s Hwf) as Hwin.
  rewrite Run_spec by done. eexists _, _. split; [done|]. cbn zeta.
  rewrite window_after_adapt by done.
  unfold after_adapt. cbn [pWeights Error set_BufferIdx set_pWeights set_Error
    StepSize Regularization pBuffer].
  change (window (set_Error _ (after_insert input s)))
    with (window (after_insert input s)).
  rewrite energy_window, dot_inner, Hwin.
  split_and!; try done.
  exists (after_insert input s). split_and!; [|done..].
  by apply Filter_insert_spec.
Qed.

(** C2.  [AdaptiveFilterRunErrorIn] adapts, then filters.  [Error] becomes
    the error supplied; the weights are updated by the NLMS rule with that
    error and the window as it was before the call; only then is the input
    inserted, and the output is the inner product of the updated weights with
    the new window. *)
Theorem RunErrorIn_adapts_then_filters s (input error : R) :
  wf s →
  ∃ output s',
    AdaptiveFilterRunErrorIn input error s = Some (output, s') ∧
    let old := window s in
    let win := input :: take (Length s - 1) old in
    Error s' = error ∧
    pWeights s' =
      zip_with (λ w x, w + StepSize s / (Regularization s + inner old old)
                           * error * x)%R
        (pWeights s) old ∧
    window s' = win ∧
    output = inner (pWeights s') win.
Proof.
  intros Hwf. pose proof Hwf as ([HL _] & _).
  pose proof (wf_after_adapt _ (wf_set_Error error s Hwf)) as Hwf1.
  rewrite RunErrorIn_spec by done. eexists _, _. split; [done|]. cbn zeta.
  rewrite window_after_insert by done.
  rewrite window_after_adapt by done.
  change (window (set_Error error s)) with (window s).
  rewrite dot_inner. cbn [Length after_adapt set_BufferIdx set_pWeights set_Error].
  split_and!; try done.
  unfold after_insert, after_adapt. cbn [pWeights Error set_BufferIdx set_pWeights
    set_Error set_pBuffer StepSize Regularization pBuffer].
  change (window (set_Error error s)) with (window s).
  by rewrite energy_window.
Qed.

Lemma wf_sample_R : wf sample_R.
Proof. unfold wf. split_and!; [solve_taps|done..]. Qed.

Lemma Run_filters_then_adapts_witness :
  ∃ output s',
    AdaptiveFilterRun 4%R 1%R sample_R = Some (output, s') ∧
    output = 2.625%R ∧ Error s' = (-1.625)%R ∧ window s' = [4; 1; 3]%R.
Proof.
  destruct (Run_filters_then_adapts sample_R 4%R 1%R wf_sample_R)
    as (output & s' & Hrun & _ & Hout & Herr & _ & Hwin).
  exists output, s'. split; [done|].
  rewrite Herr, Hout, Hwin.
  change (window sample_R) with [1; 3; 2]%R.
  unfold inner, sum_R. cbn.
  split_and!; [lra|lra|done].
Defined.

Lemma RunErrorIn_adapts_then_filters_witness :
  ∃ output s',
    AdaptiveFilterRunErrorIn 4%R 1%R sample_R = Some (output, s') ∧
    Error s' = 1%R ∧ window s' = [4; 1; 3]%R ∧
    output = inner (pWeights s') [4; 1; 3]%R.
Proof.
  destruct (RunErrorIn_adapts_then_filters sample_R 4%R 1%R wf_sample_R)
    as (output & s' & Hrun & Herr & _ & Hwin & Hout).
  exists output, s'. split_and!; try done.
Defined.

End Reals.

(** ** The history and the frame of the update, for any scalar type *)

Section History.
Context {T : Type} `{Scalar T}.
Implicit Types (s : AfData T) (c : call T).

Lemma window_zero s :
  length (pBuffer s) = Length s →
  pBuffer s = replicate (Length s) s_zero →
  window s = replicate (Length s) s_zero.
Proof.
  intros Hlen Hz. unfold window, oldest_first, rot. rewrite Hz.
  rewrite drop_replicate, take_replicate, <- replicate_add, reverse_replicate.
  f_equal. lia.
Qed.

(** C4.  An engine that starts from a zero buffer and has served any
    sequence of calls holds, in its window, the inputs of those calls from
    the newest to the oldest, followed by zeros while fewer than [Length]
    inputs have arrived; once [Length] or more have arrived the window is
    exactly the last [Length] inputs, newest first.  The insertion alone (the
    first half of [Filter]) already leaves the window so. *)
Theorem window_holds_the_latest_inputs (cs : list (call T)) s :
  wf s →
  pBuffer s = replicate (Length s) s_zero →
  ∃ obs s',
    drive cs s = Some (obs, s') ∧
    window s' =
      take (Length s) (reverse (call_input <$> cs) ++ replicate (Length s) s_zero) ∧
    (Length s ≤ length cs →
     window s' = take (Length s) (reverse (call_input <$> cs))) ∧
    ∀ input, ∃ s'',
      Filter_insert input s' = Some s'' ∧
      window s'' =
        take (Length s)
          (input :: reverse (call_input <$> cs) ++ replicate (Length s) s_zero).
Proof.
  intros Hwf Hz. pose proof Hwf as ([HL _] & Hbuf & _).
  destruct (drive_window cs s Hwf) as (obs & s' & Hdrive & Hwf' & HL' & _ & Hwin).
  rewrite (window_zero s Hbuf Hz) in Hwin.
  exists obs, s'. split_and!; [done|done| |].
  - intros Hle. rewrite Hwin, take_app_le; [done|].
    by rewrite length_reverse, length_fmap.
  - intros input. exists (after_insert input s').
    split; [by apply Filter_insert_spec|].
    rewrite window_after_insert, Hwin, HL' by done.
    rewrite take_take, Nat.min_l by lia.
    destruct (Length s) as [|n]; [lia|].
    cbn [take]. f_equal. f_equal. lia.
Qed.

(** C10.  [AdaptWeights] reads the buffer and never writes it; it advances
    the index [Length] times, each advance wrapping first, and leaves it
    congruent modulo [Length] to what it was, so the window is the same
    afterwards.  A call writes one slot of the buffer, the one under the
    wrapped index, which held the oldest sample; every other slot keeps its
    sample. *)
Theorem AdaptWeights_frame s :
  wf s →
  BufferIdx s ≤ Length s →
  (∃ s',
     AdaptWeights s = Some s' ∧
     pBuffer s' = pBuffer s ∧
     BufferIdx s' = Nat.iter (Length s) (advance (Length s)) (BufferIdx s) ∧
     BufferIdx s' `mod` Length s = BufferIdx s `mod` Length s ∧
     window s' = window s) ∧
  (∀ c, ∃ output s',
     step c s = Some (output, s') ∧
     let k := wrap (Length s) (BufferIdx s) in
     k < Length s ∧
     pBuffer s !! k = last (window s) ∧
     pBuffer s' = <[k := call_input c]> (pBuffer s) ∧
     ∀ j, j ≠ k → pBuffer s' !! j = pBuffer s !! j).
Proof.
  intros Hwf Hidx. pose proof Hwf as ([HL _] & Hbuf & Hw). split.
  - exists (after_adapt s). split; [by apply AdaptWeights_spec|].
    split; [done|].
    split; [by rewrite iter_advance_full by (by destruct Hwf)|].
    split; [|by apply window_after_adapt].
    unfold after_adapt. cbn [BufferIdx set_BufferIdx].
    case_decide; [done|].
    replace (BufferIdx s) with 0 by lia.
    by rewrite Nat.Div0.mod_same, Nat.Div0.mod_0_l.
  - intros c. pose proof (wrap_lt (Length s) (BufferIdx s) HL) as Hk.
    assert (pBuffer s !! wrap (Length s) (BufferIdx s) = last (window s)) as Hlast.
    { destruct (lookup_lt_is_Some_2 (pBuffer s) (wrap (Length s) (BufferIdx s)))
        as [x Hx]; [lia|].
      destruct (rot_step _ _ _ _ Hbuf Hk Hx) as (Hr & _).
      unfold window, oldest_first.
      by rewrite last_reverse, <- rot_wrap, Hr. }
    destruct c as [input desired|input error]; cbn [step call_input].
    + rewrite Run_spec by done. eexists _, _. split; [done|].
      split_and!; [done..|].
      intros j Hj. cbn. by rewrite list_lookup_insert_ne.
    + rewrite RunErrorIn_spec by done. eexists _, _. split; [done|].
      unfold after_insert, after_adapt.
      cbn [pBuffer BufferIdx Length set_BufferIdx set_pBuffer set_pWeights set_Error].
      assert (wrap (Length s)
                (if decide (1 ≤ BufferIdx s ≤ Length s) then BufferIdx s else Length s)
              = wrap (Length s) (BufferIdx s)) as ->.
      { case_decide; [done|]. replace (BufferIdx s) with 0 by lia.
        unfold wrap. rewrite decide_True by lia. by rewrite decide_False by lia. }
      split_and!; [done..|].
      intros j Hj. by rewrite list_lookup_insert_ne.
Qed.
End History.

Lemma wf_fresh {T} `{Scalar T} (stepSize regularization : T) n :
  taps_ok n → wf (fresh stepSize regularization n).
Proof. intros Hn. unfold wf, fresh. cbn. by rewrite length_replicate. Qed.

Lemma window_holds_the_latest_inputs_witness :
  ∃ obs s',
    drive [CallRun 1 2; CallRunErrorIn 3 4; CallRun 5 6; CallRun 7 8]%float
      (fresh 0.5%float 1%float 3) = Some (obs, s') ∧
    window s' = [7; 5; 3]%float.
Proof.
  destruct (window_holds_the_latest_inputs
              [CallRun 1 2; CallRunErrorIn 3 4; CallRun 5 6; CallRun 7 8]%float
              (fresh 0.5%float 1%float 3))
    as (obs & s' & Hdrive & _ & Hwin & _); [apply wf_fresh; solve_taps|reflexivity|].
  exists obs, s'. split; [exact Hdrive|].
  rewrite Hwin by (cbn; lia). reflexivity.
Defined.

Lemma wf_sample_float : wf sample_float.
Proof. unfold wf. split_and!; [solve_taps|done..]. Qed.

Lemma AdaptWeights_frame_witness :
  (∃ s', AdaptWeights sample_float = Some s' ∧
         pBuffer s' = [1; 2; 3]%float ∧ BufferIdx s' = 1) ∧
  (∃ output s', step (CallRun 4%float 1%float) sample_float = Some (output, s') ∧
                pBuffer s' = [1; 4; 3]%float).
Proof.
  destruct (AdaptWeights_frame sample_float wf_sample_float) as (Hadapt & Hcall);
    [cbn; lia|].
  split.
  - destruct Hadapt as (s' & Hrun & Hbuf & Hidx & _).
    exists s'. split_and!; [exact Hrun|exact Hbuf|exact Hidx].
  - destruct (Hcall (CallRun 4%float 1%float)) as (output & s' & Hrun & _ & _ & Hbuf & _).
    exists output, s'. split; [exact Hrun|exact Hbuf].
Defined.

(** ** Binary64: the zero denominator *)

Section Binary64.
Implicit Types (x y w : float).

Lemma is_nan_spec x : Prim2SF x = S754_nan → x = nan.
Proof. intros Hx. by apply Prim2SF_inj. Qed.

(** Nothing finite comes out of a division by zero... *)
Lemma div_zero_spec x :
  Prim2SF (x / 0)%float = S754_nan ∨ ∃ sg, Prim2SF (x / 0)%float = S754_infinity sg.
Proof.
  rewrite FloatAxioms.div_spec. change (Prim2SF 0) with (S754_zero false).
  destruct (Prim2SF x) as [sg|sg| |sg m e]; cbn; eauto.
Qed.

(** ... a product with it is no better... *)
Lemma mul_nan_or_inf x y :
  (Prim2SF x = S754_nan ∨ ∃ sg, Prim2SF x = S754_infinity sg) →
  Prim2SF (x * y)%float = S754_nan ∨ ∃ sg, Prim2SF (x * y)%float = S754_infinity sg.
Proof.
  rewrite FloatAxioms.mul_spec. intros [->|[sg ->]]; [by left|].
  destruct (Prim2SF y) as [sg'|sg'| |sg' m e]; cbn; eauto.
Qed.

(** ... and times a zero sample it is not a number. *)
Lemma mul_zero_nan x :
  (Prim2SF x = S754_nan ∨ ∃ sg, Prim2SF x = S754_infinity sg) →
  (x * 0)%float = nan.
Proof.
  intros Hx. apply is_nan_spec. rewrite FloatAxioms.mul_spec.
  change (Prim2SF 0) with (S754_zero false).
  by destruct Hx as [->|[sg ->]].
Qed.

Lemma add_nan w : (w + nan)%float = nan.
Proof.
  apply is_nan_spec. rewrite FloatAxioms.add_spec. change (Prim2SF nan) with S754_nan.
  by destruct (Prim2SF w).
Qed.

Lemma nlms_zero_denominator stepSize err w :
  nlms stepSize 0%float 0%float err w 0%float = nan.
Proof.
  unfold nlms. cbn [s_add s_mul s_div float_Scalar].
  change (0 + 0)%float with 0%float.
  rewrite (mul_zero_nan (stepSize / 0 * err)); [apply add_nan|].
  apply mul_nan_or_inf, div_zero_spec.
Qed.

Lemma energy_zeros n : energy (replicate n 0%float) = 0%float.
Proof.
  unfold energy. induction n as [|n IH]; [done|].
  cbn [replicate foldl s_add s_mul s_zero float_Scalar] in *.
  by change (0 + 0 * 0)%float with 0%float.
Qed.

Lemma zip_with_zeros_nan stepSize err (weights : list float) :
  zip_with (nlms stepSize 0%float 0%float err) weights
    (replicate (length weights) 0%float)
  = replicate (length weights) nan.
Proof.
  induction weights as [|w weights IH]; [done|].
  cbn [length replicate zip_with]. by rewrite nlms_zero_denominator, IH.
Qed.

(** C5, as the code has it.  With regularization 0 and an all-zero window
    the update divides by zero: nothing guards the division, the call
    returns, and whatever the step size, the error and the weights were,
    every weight is NaN afterwards. *)
Theorem AdaptWeights_zero_denominator stepSize err idx (weights : list float) :
  taps_ok (length weights) →
  ∃ s',
    AdaptWeights (degenerate stepSize err idx weights) = Some s' ∧
    pWeights s' = replicate (length weights) nan.
Proof.
  intros Hlen. set (s := degenerate stepSize err idx weights).
  assert (wf s) as Hwf by (unfold wf, s, degenerate; cbn; by rewrite length_replicate).
  exists (after_adapt s). split; [by apply AdaptWeights_spec|].
  unfold after_adapt. cbn [pWeights set_BufferIdx set_pWeights].
  rewrite window_zero by (unfold s, degenerate; cbn; by rewrite ?length_replicate).
  unfold s, degenerate.
  cbn [pWeights pBuffer StepSize Regularization Error Length].
  rewrite energy_zeros. apply zip_with_zeros_nan.
Qed.

Lemma AdaptWeights_zero_denominator_witness :
  ∃ s',
    AdaptWeights (degenerate 0.5%float 1%float 0 [1; 2]%float) = Some s' ∧
    pWeights s' = [nan; nan].
Proof.
  apply (AdaptWeights_zero_denominator 0.5%float 1%float 0 [1; 2]%float).
  solve_taps.
Defined.

(** The claim C5 at an input: the denominator is exactly zero, and a NaN is
    stored. *)
Lemma zero_denominator_stores_nan :
  let s := degenerate 0.5%float 1%float 0 [0.25%float] in
  (Regularization s + energy (pBuffer s))%S = 0%float ∧
  AdaptWeights s = Some (mkAfData 0.5%float 0%float 1 [0%float] 1 [nan] 1%float).
Proof. split; vm_compute; reflexivity. Qed.

End Binary64.

(** ** The zero signal, in the reals *)

Section ZeroSignal.
Implicit Types (s : AfData R) (c : call R).






End ZeroSignal.

(** ** The prototype and the engine *)

Section Refinement.
Implicit Types (c : call R) (AF m : Matlab.AdaptiveFir) (cst : AfData R).

Lemma as_column_column (l : list R) : Matlab.as_column (Matlab.column l) = Some l.
Proof. unfold Matlab.as_column, Matlab.column. cbn. by rewrite decide_True. Qed.

Lemma sum_squares (l : list R) : sum_R (map (λ x, x ^ 2)%R l) = inner l l.
Proof.
  unfold inner, sum_R. induction l as [|x l IH]; [done|].
  cbn [map zip_with foldr]. rewrite IH. ring.
Qed.

Lemma RunFilter_spec AF (Input : R) (buffer weights : list R) :
  Matlab.Buffer AF = Matlab.column buffer → Matlab.Weights AF = Matlab.column weights →
  length weights = length buffer → 1 ≤ length buffer →
  Matlab.RunFilter AF Input =
    Some (inner weights (Input :: removelast buffer),
          Matlab.set_Buffer (Matlab.column (Input :: removelast buffer)) AF).
Proof.
  intros HB HW Hlen Hne. unfold Matlab.RunFilter.
  rewrite HB, HW, !as_column_column. cbn [mbind option_bind].
  rewrite decide_True; [done|].
  rewrite removelast_firstn_len. cbn [length].
  rewrite length_take. lia.
Qed.

Lemma NLMS_spec AF (buffer weights : list R) (stepSize error : R) :
  Matlab.Buffer AF = Matlab.column buffer → Matlab.Weights AF = Matlab.column weights →
  Matlab.StepSize AF = Matlab.scalar stepSize → Matlab.Error AF = Matlab.scalar error →
  length weights = length buffer →
  Matlab.NLMS AF =
    Some (Matlab.set_Weights
            (Matlab.column (zip_with (nlms stepSize Matlab.epsilon (inner buffer buffer) error)
                       weights buffer)) AF).
Proof.
  intros HB HW HS HE Hlen. unfold Matlab.NLMS.
  rewrite HB, HW, HS, HE, !as_column_column. cbn [mbind option_bind Matlab.as_scalar Matlab.scalar].
  rewrite decide_True by done. rewrite sum_squares.
  by rewrite zip_with_fmap_r.
Qed.

Lemma window_shift cst (input : R) :
  wf cst →
  input :: removelast (window cst) = window (after_insert input cst).
Proof.
  intros Hwf. rewrite window_after_insert by done.
  rewrite removelast_firstn_len, length_window.
  destruct Hwf as (_ & -> & _). by rewrite Nat.sub_1_r.
Qed.

(** One call: the same output, and the same state again, the error
    included. *)
Lemma step_refines c cst m :
  same_state cst m →
  ∃ output cst' m',
    step c cst = Some (output, cst') ∧
    Matlab.step c m = Some (output, m') ∧
    same_state cst' m' ∧
    Matlab.Error m' = Matlab.scalar (Error cst').
Proof.
  intros (Hwf & Hreg & HB & HW & HS). pose proof Hwf as ([HL _] & Hbuf & Hw).
  destruct c as [input desired|input error]; cbn [step Matlab.step].
  - pose proof (wf_after_insert input cst Hwf) as Hwf1.
    rewrite Run_spec by done. unfold Matlab.Run.
    rewrite (RunFilter_spec m input (window cst) (pWeights cst))
      by (rewrite ?length_window; done || lia).
    cbn [mbind option_bind].
    rewrite (NLMS_spec _ (input :: removelast (window cst)) (pWeights cst)
               (StepSize cst) (desired - inner (pWeights cst) (input :: removelast (window cst))));
      [|done..|].
    2:{ rewrite window_shift, length_window by done.
        unfold after_insert. cbn. rewrite length_insert. lia. }
    cbn [mbind option_bind]. rewrite window_shift, dot_inner by done.
    eexists _, _, _. split; [reflexivity|]. split; [reflexivity|].
    split; [|reflexivity]. unfold same_state. split_and!.
    + by apply wf_after_adapt, wf_set_Error.
    + done.
    + cbn [Matlab.Buffer Matlab.set_Weights Matlab.set_Error Matlab.set_Buffer].
      by rewrite window_after_adapt by (by destruct Hwf1 as [[? _] _]).
    + cbn [Matlab.Weights Matlab.set_Weights]. unfold after_adapt.
      cbn [pWeights set_BufferIdx set_pWeights set_Error StepSize Regularization
        Error pBuffer].
      change (window (set_Error _ (after_insert input cst)))
        with (window (after_insert input cst)).
      change (pWeights (after_insert input cst)) with (pWeights cst).
      change (StepSize (after_insert input cst)) with (StepSize cst).
      change (Regularization (after_insert input cst)) with (Regularization cst).
      by rewrite energy_window, Hreg.
    + done.
  - pose proof (wf_after_adapt _ (wf_set_Error error cst Hwf)) as Hwf1.
    rewrite RunErrorIn_spec by done. unfold Matlab.RunErrorInput.
    rewrite (NLMS_spec _ (window cst) (pWeights cst) (StepSize cst) error);
      [|done..|by rewrite length_window; lia].
    cbn [mbind option_bind].
    erewrite (RunFilter_spec _ input (window cst)); [|done|done|..].
    2:{ rewrite length_zip_with, length_window. lia. }
    2:{ rewrite length_window. lia. }
    assert (pWeights (after_adapt (set_Error error cst))
            = zip_with (nlms (StepSize cst) Matlab.epsilon
                          (inner (window cst) (window cst)) error)
                (pWeights cst) (window cst)) as HWs.
    { unfold after_adapt.
      cbn [pWeights set_BufferIdx set_pWeights set_Error StepSize Regularization
        Error pBuffer].
      change (window (set_Error error cst)) with (window cst).
      by rewrite energy_window, Hreg. }
    assert (window (after_adapt (set_Error error cst)) = window cst) as HBs
      by (by rewrite window_after_adapt).
    rewrite dot_inner, <- window_shift, HBs, HWs by done.
    eexists _, _, _. split; [reflexivity|]. split; [reflexivity|].
    split; [|reflexivity]. unfold same_state. split_and!.
    + by apply wf_after_insert.
    + done.
    + cbn [Matlab.Buffer Matlab.set_Buffer].
      by rewrite <- window_shift, HBs by done.
    + cbn [Matlab.Weights Matlab.set_Weights Matlab.set_Buffer Matlab.set_Error].
      by rewrite <- HWs.
    + done.
Qed.

(** A prototype constructed from a column of weights and an engine set up
    with the same weights, a zero buffer and the prototype's constant as its
    regularization start from the same abstract state. *)
Lemma new_same_state (weights : list R) (stepSize : R) :
  taps_ok (length weights) →
  ∃ m,
    Matlab.new (Matlab.column weights) (Matlab.scalar stepSize) = Matlab.Ok m ∧
    same_state
      (mkAfData stepSize Matlab.epsilon (length weights)
         (replicate (length weights) 0%R) 0 weights 0%R) m.
Proof.
  intros Hlen. eexists. split.
  { unfold Matlab.new, Matlab.isvector. cbn. by rewrite orb_true_r. }
  unfold same_state, wf. cbn [Length pBuffer pWeights Regularization StepSize].
  rewrite length_replicate. split_and!; try done.
  - cbn [Matlab.Buffer]. rewrite window_zero by (cbn; by rewrite ?length_replicate).
    cbn [Length]. unfold Matlab.zeros, Matlab.column.
    by rewrite length_replicate, Nat.mul_1_r.
  - cbn [Matlab.Weights]. unfold Matlab.colon, Matlab.column, Matlab.numel. cbn.
    by rewrite Nat.mul_1_r.
Qed.

(** C8.  Started from the same abstract state and driven by the same calls,
    the circular-index engine and the copy-and-shift prototype make the same
    observations after every call (the output, the error, the weights), in
    exact real arithmetic, and end in the same abstract state. *)
Theorem prototype_and_engine_agree (cs : list (call R)) cst m :
  same_state cst m →
  ∃ obs cst' m',
    drive cs cst = Some (obs, cst') ∧
    Matlab.drive cs m = Some (obs, m') ∧
    length obs = length cs ∧
    same_state cst' m'.
Proof.
  revert cst m. induction cs as [|c cs IH]; intros cst m Hsame.
  - by exists [], cst, m.
  - destruct (step_refines c cst m Hsame)
      as (output & cst1 & m1 & Hstep & Hmstep & Hsame1 & Herr).
    destruct (IH cst1 m1 Hsame1) as (obs & cst' & m' & Hdrive & Hmdrive & Hlen & Hsame').
    destruct Hsame1 as (_ & _ & _ & HW1 & _).
    cbn [drive Matlab.drive]. rewrite Hstep, Hmstep. cbn [mbind option_bind].
    rewrite Hdrive, Hmdrive, Herr, HW1, as_column_column.
    cbn [mbind option_bind Matlab.as_scalar Matlab.scalar].
    eexists _, cst', m'. split_and!; [reflexivity|reflexivity|cbn; lia|done].
Qed.

Lemma same_state_sample :
  same_state (mkAfData 0.5 Matlab.epsilon 3 [1; 2; 3] 1 [0.5; 0.25; 0.125] 0)%R
    (Matlab.mkAdaptiveFir (Matlab.column [1; 3; 2]%R)
       (Matlab.column [0.5; 0.25; 0.125]%R) (Matlab.scalar 0.5%R) Matlab.empty).
Proof. unfold same_state, wf. cbn. split_and!; (solve_taps || reflexivity). Qed.

Lemma prototype_and_engine_agree_witness :
  ∃ obs cst' m',
    drive [CallRun 4 1; CallRunErrorIn 5 (-1)]%R
      (mkAfData 0.5 Matlab.epsilon 3 [1; 2; 3] 1 [0.5; 0.25; 0.125] 0)%R
      = Some (obs, cst') ∧
    Matlab.drive [CallRun 4 1; CallRunErrorIn 5 (-1)]%R
      (Matlab.mkAdaptiveFir (Matlab.column [1; 3; 2]%R)
         (Matlab.column [0.5; 0.25; 0.125]%R) (Matlab.scalar 0.5%R) Matlab.empty)
      = Some (obs, m') ∧
    length obs = 2.
Proof.
  destruct (prototype_and_engine_agree [CallRun 4 1; CallRunErrorIn 5 (-1)]%R
              _ _ same_state_sample)
    as (obs & cst' & m' & Hdrive & Hmdrive & Hlen & _).
  exists obs, cst', m'. split_and!; [exact Hdrive|exact Hmdrive|exact Hlen].
Defined.
End Refinement.

(** ** Construction *)

Section Construction.

(** C6, as the code has it.  The constructor of the prototype fails exactly
    when [Weights] is not a vector ([isvector]: 1-by-N or N-by-1, N may be
    0) or [StepSize] is not 1-by-1, and otherwise builds the filter with a
    zero buffer of the size of [Weights].  It takes no regularization:
    [NLMS] uses the constant [epsilon].  The C engine has no constructor, the
    caller fills in [AfData].  Neither checks anything per sample, and on a
    well-formed engine an insertion and a call always return, the call
    leaving the engine well formed. *)
Theorem construction_checks :
  (∀ Weights StepSize : Matlab.array,
     ((∃ msg, Matlab.new Weights StepSize = Matlab.AssertionFailed msg) ↔
      (Matlab.isvector Weights = false ∨ Matlab.isscalar StepSize = false)) ∧
     (Matlab.isvector Weights = true → Matlab.isscalar StepSize = true →
      Matlab.new Weights StepSize =
        Matlab.Ok (Matlab.mkAdaptiveFir
                     (Matlab.zeros (Matlab.rows Weights) (Matlab.cols Weights))
                     (Matlab.colon Weights) StepSize Matlab.empty))) ∧
  (∀ (T : Type) (H : Scalar T) (s : AfData T),
     wf s →
     (∀ input, ∃ s', Filter_insert input s = Some s') ∧
     (∀ c, ∃ output s', step c s = Some (output, s') ∧ wf s')).
Proof.
  split.
  - intros Weights StepSize. unfold Matlab.new.
    destruct (Matlab.isvector Weights), (Matlab.isscalar StepSize); cbn;
      (split; [split|]);
      try (intros [msg Hmsg]; discriminate); try (intros [?|?]; discriminate);
      try discriminate; eauto.
  - intros T H s Hwf. split.
    + intros input. eexists. by apply Filter_insert_spec.
    + intros c. destruct (step_spec c s Hwf) as (output & s' & Hstep & Hwf' & _).
      by exists output, s'.
Qed.

Lemma construction_checks_witness :
  (∃ msg, Matlab.new (Matlab.zeros 2 2) (Matlab.scalar 0.5%R)
          = Matlab.AssertionFailed msg) ∧
  (∃ output s', step (CallRun 4 1)%R sample_R = Some (output, s') ∧ wf s').
Proof.
  destruct construction_checks as (Hnew & Hstep). split.
  - apply Hnew. by left.
  - apply (Hstep R _ sample_R wf_sample_R).
Defined.

(** The claim C6 at two inputs.  A weight vector with no element is
    accepted by the constructor; and an engine with a negative
    regularization is served like any other. *)
Lemma empty_weights_are_accepted :
  Matlab.numel (Matlab.zeros 1 0) = 0 ∧
  Matlab.new (Matlab.zeros 1 0) (Matlab.scalar 0.5%R)
    = Matlab.Ok (Matlab.mkAdaptiveFir (Matlab.zeros 1 0) (Matlab.mkArray 0 1 [])
                   (Matlab.scalar 0.5%R) Matlab.empty) ∧
  ∃ output s',
    AdaptiveFilterRun 1%R 1%R (fresh 0.5%R (-1)%R 1) = Some (output, s') ∧
    Regularization s' = (-1)%R.
Proof.
  split_and!; [reflexivity..|].
  rewrite Run_spec by (apply wf_fresh; solve_taps). by eexists _, _.
Qed.
End Construction.

(** ** The convergence test *)

Section Convergence.
Import AdaptiveFilterTest.


(** README's expected output ends with a misalignment of -312.842130 dB and
    a squared error of -304.284542 dB.  The embedded test, run with the BSD
    generator, ends between the power ratios that round to these two
    figures. *)
#[warnings="-inexact-float"]
Theorem test_reproduces_README :
  ∃ t, AdaptiveFilterTestRun bsd_rand bsd_RAND_MAX = Some t ∧
       (5.1974097e-32 <? misalignmentPower t)%float = true ∧
       (misalignmentPower t <? 5.1974108e-32)%float = true ∧
       (3.7285997e-31 <? squaredErrorPower t)%float = true ∧
       (squaredErrorPower t <? 3.7286004e-31)%float = true.
Proof.
  eexists; split; [vm_compute; reflexivity|].
  split_and!; vm_compute; reflexivity.
Qed.
End Convergence.

(** ** More on the engine, for any scalar type *)

Section Configuration.
Context {T : Type} `{Scalar T}.
Implicit Types (s : AfData T) (c : call T).

(** Where a call leaves the index: one past the slot it wrote. *)
Lemma step_index c s output s' :
  wf s → step c s = Some (output, s') →
  BufferIdx s' = S (wrap (Length s) (BufferIdx s)).
Proof.
  intros Hwf Hstep. pose proof Hwf as ([HL _] & _).
  pose proof (wrap_lt (Length s) (BufferIdx s) HL) as Hk.
  destruct c as [input desired|input error]; cbn [step] in Hstep.
  - rewrite Run_spec in Hstep by done. injection Hstep as _ <-.
    unfold after_adapt, after_insert.
    cbn [BufferIdx Length set_BufferIdx set_pBuffer set_pWeights set_Error].
    by rewrite decide_True by lia.
  - rewrite RunErrorIn_spec in Hstep by done. injection Hstep as _ <-.
    unfold after_insert, after_adapt.
    cbn [BufferIdx Length set_BufferIdx set_pBuffer set_pWeights set_Error].
    case_decide; [done|].
    destruct (wrap_cases (Length s) (Length s)) as [[_ ->]|[? _]]; [|lia].
    destruct (wrap_cases (Length s) (BufferIdx s)) as [[_ ->]|[? ->]]; [done|lia].
Qed.

(** X1.  Through any sequence of calls a well-formed engine stays well formed:
    every call returns, the two arrays keep their [Length] elements, the
    parameters [Length], [StepSize] and [Regularization] keep their values,
    every weight vector observed on the way has [Length] elements, and once a
    call has been served the index lies in [1..Length]. *)
Theorem drive_keeps_the_configuration (cs : list (call T)) s :
  wf s →
  ∃ obs s',
    drive cs s = Some (obs, s') ∧
    wf s' ∧
    Length s' = Length s ∧ StepSize s' = StepSize s ∧
    Regularization s' = Regularization s ∧
    length obs = length cs ∧
    Forall (λ o : observation T, length o.2 = Length s) obs ∧
    (cs ≠ [] → 1 ≤ BufferIdx s' ≤ Length s).
Proof.
  revert s. induction cs as [|c cs IH]; intros s Hwf.
  - exists [], s. by split_and!.
  - destruct (step_spec c s Hwf)
      as (output & s1 & Hstep & Hwf1 & HL1 & HS1 & HR1 & _).
    pose proof (step_index c s output s1 Hwf Hstep) as Hidx.
    destruct (IH s1 Hwf1) as (obs & s' & Hdrive & Hwf' & HL' & HS' & HR' & Hlen & Hobs & Hi).
    cbn [drive]. rewrite Hstep. cbn [mbind option_bind]. rewrite Hdrive.
    cbn [mbind option_bind]. eexists _, s'. split; [reflexivity|].
    split_and!; [done|congruence..| | |].
    + cbn. lia.
    + apply Forall_cons. split.
      * cbn. destruct Hwf1 as (_ & _ & Hw1). lia.
      * by rewrite <- HL1.
    + intros _. destruct cs as [|c' cs].
      * cbn in Hdrive. injection Hdrive as _ <-.
        destruct Hwf as ([HL _] & _).
        pose proof (wrap_lt (Length s) (BufferIdx s) HL). lia.
      * rewrite <- HL1. by apply Hi.
Qed.

(** X2.  The slots of the buffer are written in turn: a call leaves the index one
    past the slot it wrote, within [1..Length] whatever the caller had put
    there, and the slot the next call writes is the successor, modulo
    [Length], of the slot this call wrote. *)
Theorem calls_write_successive_slots c s output s' :
  wf s →
  step c s = Some (output, s') →
  let k := wrap (Length s) (BufferIdx s) in
  pBuffer s' !! k = Some (call_input c) ∧
  BufferIdx s' = S k ∧
  1 ≤ BufferIdx s' ≤ Length s ∧
  wrap (Length s') (BufferIdx s') = S k `mod` Length s.
Proof.
  intros Hwf Hstep k. pose proof Hwf as ([HL _] & Hbuf & _).
  pose proof (wrap_lt (Length s) (BufferIdx s) HL) as Hk.
  pose proof (step_index c s output s' Hwf Hstep) as Hidx.
  destruct (step_spec c s Hwf) as (o & s1 & Hstep' & _ & HL' & _).
  rewrite Hstep in Hstep'. injection Hstep' as <- <-.
  split_and!; [|done|lia|lia|].
  - destruct c as [input desired|input error]; cbn [step call_input] in *.
    + rewrite Run_spec in Hstep by done. injection Hstep as _ <-.
      cbn. apply list_lookup_insert_eq. fold k. lia.
    + rewrite RunErrorIn_spec in Hstep by done. injection Hstep as _ <-.
      unfold after_insert, after_adapt.
      cbn [pBuffer BufferIdx Length set_BufferIdx set_pBuffer set_pWeights set_Error].
      assert (wrap (Length s)
                (if decide (1 ≤ BufferIdx s ≤ Length s) then BufferIdx s else Length s)
              = k) as ->.
      { unfold k. case_decide; [done|].
        destruct (wrap_cases (Length s) (Length s)) as [[_ ->]|[? _]]; [|lia].
        destruct (wrap_cases (Length s) (BufferIdx s)) as [[_ ->]|[? ->]]; [done|lia]. }
      apply list_lookup_insert_eq. lia.
  - rewrite HL', Hidx. fold k. unfold wrap at 1. case_decide.
    + assert (S k = Length s) as -> by lia. by rewrite Nat.Div0.mod_same.
    + by rewrite Nat.mod_small by lia.
Qed.

(** X3.  After [Length] or more calls nothing is left of the buffer the engine
    started from, whatever it held: the window is the last [Length] inputs,
    newest first. *)
Theorem initial_samples_are_evicted (cs : list (call T)) s :
  wf s →
  Length s ≤ length cs →
  ∃ obs s',
    drive cs s = Some (obs, s') ∧
    window s' = take (Length s) (reverse (call_input <$> cs)).
Proof.
  intros Hwf Hlen.
  destruct (drive_window cs s Hwf) as (obs & s' & Hdrive & _ & _ & _ & Hwin).
  exists obs, s'. split; [done|].
  rewrite Hwin, take_app_le; [done|]. by rewrite length_reverse, length_fmap.
Qed.

End Configuration.

Lemma drive_keeps_the_configuration_witness :
  ∃ obs s',
    drive [CallRun 1 2; CallRunErrorIn 3 4]%float sample_float = Some (obs, s') ∧
    Length s' = 3 ∧ length (pWeights s') = 3 ∧ length (pBuffer s') = 3.
Proof.
  destruct (drive_keeps_the_configuration [CallRun 1 2; CallRunErrorIn 3 4]%float
              sample_float wf_sample_float)
    as (obs & s' & Hdrive & (_ & Hb & Hw) & HL & _).
  exists obs, s'. rewrite Hb, Hw, HL. split_and!; [exact Hdrive|reflexivity..].
Defined.

Lemma calls_write_successive_slots_witness :
  ∃ output s',
    step (CallRun 4%float 1%float) sample_float = Some (output, s') ∧
    pBuffer s' !! 1 = Some 4%float ∧ BufferIdx s' = 2.
Proof.
  destruct (step_spec (CallRun 4%float 1%float) sample_float wf_sample_float)
    as (output & s' & Hstep & _).
  destruct (calls_write_successive_slots _ _ _ _ wf_sample_float Hstep)
    as (Hslot & Hidx & _).
  exists output, s'. split_and!; [exact Hstep|exact Hslot|exact Hidx].
Defined.

Lemma initial_samples_are_evicted_witness :
  ∃ obs s',
    drive [CallRun 4 1; CallRunErrorIn 5 1; CallRun 6 1]%float sample_float
      = Some (obs, s') ∧
    window s' = [6; 5; 4]%float.
Proof.
  destruct (initial_samples_are_evicted
              [CallRun 4 1; CallRunErrorIn 5 1; CallRun 6 1]%float sample_float
              wf_sample_float)
    as (obs & s' & Hdrive & Hwin); [cbn; lia|].
  exists obs, s'. split; [exact Hdrive|exact Hwin].
Defined.

(** ** The bounds of the arrays *)

Section Bounds.
Context {T : Type} `{Scalar T}.
Implicit Types (s : AfData T) (c : call T).

Lemma SquaredNorm_loop_short (buf : list T) n : ∀ i output,
  i ≤ length buf → length buf < i + n →
  SquaredNorm_loop buf n i output = None.
Proof.
  induction n as [|n IH]; intros i output Hi Hlen; [lia|].
  cbn [SquaredNorm_loop]. destruct (buf !! i) as [x|] eqn:Hx; [|done].
  apply lookup_lt_Some in Hx. cbn. apply IH; lia.
Qed.

(** The loop of [Filter] changes the index and nothing else. *)
Lemma Filter_loop_frame n : ∀ output s o s',
  Filter_loop n output s = Some (o, s') →
  pBuffer s' = pBuffer s ∧ pWeights s' = pWeights s ∧ Length s' = Length s.
Proof.
  induction n as [|i IH]; intros output s o s' Hloop.
  - cbn in Hloop. by injection Hloop as _ <-.
  - cbn [Filter_loop] in Hloop. cbn in Hloop.
    destruct (pWeights s !! i) as [w|]; [|done]. cbn in Hloop.
    destruct (pBuffer s !! wrap (Length s) (BufferIdx s)) as [x|]; [|done].
    cbn in Hloop. by apply IH in Hloop.
Qed.

Lemma Filter_insert_frame input s s1 :
  Filter_insert input s = Some s1 →
  length (pBuffer s1) = length (pBuffer s) ∧ pWeights s1 = pWeights s ∧
  Length s1 = Length s.
Proof.
  unfold Filter_insert. cbn.
  destruct (pBuffer s !! wrap (Length s) (BufferIdx s)) as [x|]; [|done].
  cbn. intros [= <-]. cbn. by rewrite length_insert.
Qed.

(** X4.  The engine trusts its caller with the size of the arrays.  With fewer
    than [Length] samples in the buffer, or fewer than [Length] weights, a
    call of either entry point reads outside an array. *)
Theorem short_arrays_are_overrun c s :
  taps_ok (Length s) →
  length (pBuffer s) < Length s ∨ length (pWeights s) < Length s →
  step c s = None.
Proof.
  intros Htaps Hshort. pose proof Htaps as [HL _].
  destruct (Length s) as [|m] eqn:HLs; [lia|].
  destruct c as [input desired|input error]; cbn [step].
  - unfold AdaptiveFilterRun, Filter.
    destruct (Filter_insert input s) as [s1|] eqn:Hins; [|done].
    apply Filter_insert_frame in Hins as (Hb1 & Hw1 & HL1).
    cbn -[Filter_loop AdaptWeights]. rewrite HL1, HLs, countdown_taps by done.
    destruct (Filter_loop (S m) s_zero s1) as [[o s2]|] eqn:Hloop; [|done].
    cbn -[AdaptWeights].
    destruct (decide (length (pWeights s) < S m)) as [Hw|Hw].
    + cbn [Filter_loop] in Hloop. cbn in Hloop.
      rewrite Hw1, (lookup_ge_None_2 (pWeights s) m) in Hloop by lia. done.
    + apply Filter_loop_frame in Hloop as (Hb2 & _ & HL2).
      unfold AdaptWeights. cbn. rewrite HL2, HL1, HLs.
      unfold SquaredNorm. rewrite SquaredNorm_loop_short; [done|lia|].
      rewrite Hb2, Hb1. lia.
  - unfold AdaptiveFilterRunErrorIn, AdaptWeights.
    cbn [Length pBuffer set_Error]. rewrite HLs.
    destruct (SquaredNorm (pBuffer s) (S m)) as [sn|] eqn:Hsn; [|done].
    cbn -[AdaptWeights_loop Filter].
    destruct (decide (length (pWeights s) < S m)) as [Hw|Hw].
    + rewrite countdown_taps by done.
      cbn [AdaptWeights_loop]. cbn -[Filter].
      by rewrite (lookup_ge_None_2 (pWeights s) m) by lia.
    + unfold SquaredNorm in Hsn.
      rewrite SquaredNorm_loop_short in Hsn; [done|lia|lia].
Qed.

Lemma Filter_no_tap input s :
  Length s = 0 →
  Filter input s =
    match pBuffer s with
    | [] => None
    | _ :: buf =>
        Some (s_zero,
              mkAfData (StepSize s) (Regularization s) 0 (input :: buf) 1
                (pWeights s) (Error s))
    end.
Proof.
  destruct s as [step reg L buf idx weights err]. cbn [Length pBuffer]. intros ->.
  assert (countdown 0 = 0) as Hc by reflexivity.
  assert (uint_incr 0 = 1) as Hi by reflexivity.
  assert (wrap 0 idx = 0) as Hw by (unfold wrap; by rewrite decide_True by lia).
  unfold Filter, Filter_insert, wrap_index.
  cbn [Length BufferIdx pBuffer set_BufferIdx set_pBuffer]. rewrite Hw.
  destruct buf as [|b buf]; [done|].
  cbn [lookup list_lookup mbind option_bind Length set_BufferIdx set_pBuffer].
  rewrite Hc, Hi. reflexivity.
Qed.

Lemma AdaptWeights_no_tap s : Length s = 0 → AdaptWeights s = Some s.
Proof.
  intros HL. unfold AdaptWeights. rewrite HL.
  assert (countdown 0 = 0) as -> by reflexivity. done.
Qed.

(** X5.  An engine of no tap.  With [Length = 0] the loops do not run ([Length -
    1] is [UINT_MAX], the [int] counter starts at -1), but [Filter] still
    stores the input into slot 0 of the buffer: a call fails when the buffer
    has no slot, and otherwise returns a zero output, sets [Error], moves the
    index to 1 and leaves the weights as they were. *)
Theorem no_tap_engine s (input x : T) :
  Length s = 0 →
  AdaptiveFilterRun input x s =
    match pBuffer s with
    | [] => None
    | _ :: buf =>
        Some (s_zero,
              mkAfData (StepSize s) (Regularization s) 0 (input :: buf) 1
                (pWeights s) (x - s_zero)%S)
    end ∧
  AdaptiveFilterRunErrorIn input x s =
    match pBuffer s with
    | [] => None
    | _ :: buf =>
        Some (s_zero,
              mkAfData (StepSize s) (Regularization s) 0 (input :: buf) 1
                (pWeights s) x)
    end.
Proof.
  intros HL. split.
  - unfold AdaptiveFilterRun. rewrite (Filter_no_tap input s HL).
    destruct (pBuffer s) as [|b buf]; [done|]. cbn [mbind option_bind].
    by rewrite AdaptWeights_no_tap.
  - unfold AdaptiveFilterRunErrorIn.
    rewrite AdaptWeights_no_tap by done. cbn [mbind option_bind].
    rewrite (Filter_no_tap input (set_Error x s)) by done.
    cbn [pBuffer set_Error StepSize Regularization pWeights Error].
    by destruct (pBuffer s).
Qed.
End Bounds.

Lemma short_arrays_are_overrun_witness :
  step (CallRun 4 1)%float
    (mkAfData 0.5 0 3 [1; 2] 0 [0.5; 0.25; 0.125] 0)%float = None ∧
  step (CallRunErrorIn 4 1)%float
    (mkAfData 0.5 0 3 [1; 2; 3] 0 [0.5; 0.25] 0)%float = None.
Proof.
  split; apply short_arrays_are_overrun; (solve_taps || (cbn; lia)).
Defined.

Lemma no_tap_engine_witness :
  AdaptiveFilterRun 4%float 1%float
    (mkAfData 0.5 0 0 [7; 8] 5 [0.25] 0)%float =
    Some (0%float, mkAfData 0.5 0 0 [4; 8] 1 [0.25] 1)%float.
Proof.
  destruct (no_tap_engine (mkAfData 0.5 0 0 [7; 8] 5 [0.25] 0)%float 4%float 1%float)
    as (Hrun & _); [reflexivity|].
  rewrite Hrun. reflexivity.
Defined.

(** ** The update in exact arithmetic *)

Section Update.
Implicit Types (s : AfData R) (buf : list R).

Lemma inner_self_nonneg (x : list R) : (0 <= inner x x)%R.
Proof.
  unfold inner, sum_R. induction x as [|a x IH]; cbn; [lra|]. nra.
Qed.


(** X6.  [SquaredNorm] never returns a negative energy, so a regularization
    above 0 keeps the denominator of the normalized step above 0 and the
    step itself within [StepSize / Regularization] in magnitude. *)
Theorem normalized_step_is_bounded buf (stepSize regularization : R) :
  (0 < regularization)%R →
  ∃ sn,
    SquaredNorm buf (length buf) = Some sn ∧
    (0 <= sn)%R ∧
    (0 < regularization + sn)%R ∧
    (Rabs (stepSize / (regularization + sn)) <= Rabs stepSize / regularization)%R.
Proof.
  intros Hreg. exists (energy buf). split; [apply SquaredNorm_spec|].
  assert (0 <= energy buf)%R as Hsn.
  { unfold energy. rewrite foldl_energy. pose proof (inner_self_nonneg buf).
    cbn. lra. }
  split_and!; [done|lra|].
  unfold Rdiv. rewrite Rabs_mult, Rabs_inv, (Rabs_pos_eq (_ + _)) by lra.
  apply Rmult_le_compat_l; [apply Rabs_pos|].
  apply Rinv_le_contravar; lra.
Qed.

Lemma normalized_step_is_bounded_witness :
  ∃ sn,
    SquaredNorm [1; 2; 3]%R 3 = Some sn ∧ (0 <= sn)%R ∧
    (Rabs (0.5 / (1 + sn)) <= Rabs 0.5 / 1)%R.
Proof.
  destruct (normalized_step_is_bounded [1; 2; 3]%R 0.5%R 1%R)
    as (sn & Hsn & Hpos & _ & Hbound); [lra|].
  exists sn. split_and!; [exact Hsn|exact Hpos|exact Hbound].
Defined.



Lemma inner_nlms (stepSize regularization sn err : R) (w x : list R) :
  length w = length x →
  inner (zip_with (nlms stepSize regularization sn err) w x) x
  = (inner w x + stepSize / (regularization + sn) * err * inner x x)%R.
Proof.
  revert x. induction w as [|a w IH]; intros [|b x] Hlen; try done.
  - unfold inner, sum_R. cbn. lra.
  - cbn [zip_with]. rewrite !inner_cons, IH by (cbn in *; lia).
    unfold nlms. cbn. lra.
Qed.

Lemma sqdist_nlms (target w x : list R) (c : R) :
  length target = length w → length w = length x →
  sqdist target (zip_with (λ a b, a + c * b)%R w x)
  = (sqdist target w - 2 * c * (inner target x - inner w x) + c * c * inner x x)%R.
Proof.
  unfold sqdist. revert w x.
  induction target as [|t target IH]; intros [|a w] [|b x] Hl1 Hl2; try done.
  - unfold inner, sum_R. cbn. lra.
  - cbn [zip_with]. rewrite !inner_cons, IH by (cbn in *; lia). lra.
Qed.

(** The algebra of one update, for a step size in [0, 2] and a positive
    denominator. *)
Lemma contraction_factor (stepSize den e : R) :
  (0 <= stepSize <= 2)%R → (0 <= e <= den)%R → (0 < den)%R →
  (-1 <= 1 - stepSize / den * e <= 1)%R.
Proof.
  intros Hstep He Hden.
  pose proof (Rinv_0_lt_compat den Hden) as Hinv.
  assert (den * / den = 1)%R as Hone by (field; lra).
  assert (0 <= e * / den <= 1)%R as Hr by nra.
  replace (stepSize / den * e)%R with (stepSize * (e * / den))%R by (field; lra).
  nra.
Qed.

(** X8.  After [AdaptiveFilterRun] the updated weights answer the window they
    were updated on with an error that is the error of the call times
    [1 - StepSize * energy / (Regularization + energy)]; for a step size in
    [0, 2] and a regularization that is not negative, that is no larger in
    magnitude than the error of the call. *)
Theorem Run_reduces_the_error s (input desired : R) :
  wf s →
  let win := input :: take (Length s - 1) (window s) in
  (0 <= StepSize s <= 2)%R →
  (0 <= Regularization s)%R →
  (0 < Regularization s + inner win win)%R →
  ∃ output s',
    AdaptiveFilterRun input desired s = Some (output, s') ∧
    (desired - inner (pWeights s') win
     = (1 - StepSize s / (Regularization s + inner win win) * inner win win)
       * (desired - output))%R ∧
    (Rabs (desired - inner (pWeights s') win) <= Rabs (desired - output))%R.
Proof.
  intros Hwf win Hstep Hreg Hden. pose proof Hwf as ([HL _] & Hbuf & Hw).
  pose proof (wf_after_insert input s Hwf) as Hwf1.
  pose proof (window_after_insert input s Hwf) as Hwin. fold win in Hwin.
  rewrite Run_spec by done. eexists _, _. split; [reflexivity|].
  unfold after_adapt. cbn [pWeights Error set_BufferIdx set_pWeights set_Error
    StepSize Regularization pBuffer].
  change (window (set_Error _ (after_insert input s)))
    with (window (after_insert input s)).
  change (pWeights (after_insert input s)) with (pWeights s).
  change (StepSize (after_insert input s)) with (StepSize s).
  change (Regularization (after_insert input s)) with (Regularization s).
  rewrite energy_window, dot_inner, Hwin.
  rewrite inner_nlms
    by (unfold win; cbn; rewrite length_take, length_window; lia).
  set (e := (desired - inner (pWeights s) win)%S).
  assert ((desired - (inner (pWeights s) win
             + StepSize s / (Regularization s + inner win win) * e * inner win win))%R
          = ((1 - StepSize s / (Regularization s + inner win win) * inner win win)
             * e)%R) as Heq by (unfold e; cbn; ring).
  split; [exact Heq|]. rewrite Heq, Rabs_mult.
  pose proof (inner_self_nonneg win) as Hnn.
  pose proof (contraction_factor (StepSize s) (Regularization s + inner win win)
                (inner win win) Hstep ltac:(lra) Hden) as Hf.
  change (desired - inner (pWeights s) win)%R with e.
  apply Rle_trans with (1 * Rabs e)%R; [|lra].
  apply Rmult_le_compat_r; [apply Rabs_pos|].
  apply Rabs_le. lra.
Qed.

Lemma Run_reduces_the_error_witness :
  ∃ output s',
    AdaptiveFilterRun 4%R 1%R (mkAfData 0.5 1 3 [1; 2; 3] 1 [0.5; 0.25; 0.125] 0)%R
      = Some (output, s') ∧
    (Rabs (1 - inner (pWeights s') [4; 1; 3]) <= Rabs (1 - output))%R.
Proof.
  destruct (Run_reduces_the_error
              (mkAfData 0.5 1 3 [1; 2; 3] 1 [0.5; 0.25; 0.125] 0)%R 4%R 1%R)
    as (output & s' & Hrun & _ & Hle).
  - unfold wf. split_and!; [solve_taps|done..].
  - cbn. lra.
  - cbn. lra.
  - change (window _) with [1; 3; 2]%R. unfold inner, sum_R. cbn. lra.
  - exists output, s'. split; [exact Hrun|exact Hle].
Defined.
(** One [AdaptiveFilterRun] whose desired sample is the response of a fixed
    filter [target] to the window: the squared distance from the weights to
    [target] does not grow. *)
Lemma Run_towards_target s (target : list R) (input : R) :
  wf s → length target = Length s →
  let win := input :: take (Length s - 1) (window s) in
  (0 <= StepSize s <= 2)%R →
  (0 < Regularization s)%R →
  ∃ output s',
    step (CallRun input (inner target win)) s = Some (output, s') ∧
    wf s' ∧ Length s' = Length s ∧ StepSize s' = StepSize s ∧
    Regularization s' = Regularization s ∧ window s' = win ∧
    (sqdist target (pWeights s') <= sqdist target (pWeights s))%R.
Proof.
  intros Hwf Htarget win Hstep Hreg. pose proof Hwf as ([HL _] & Hbuf & Hw).
  destruct (step_spec (CallRun input (inner target win)) s Hwf)
    as (output & s' & Hrun & Hwf' & HL' & HS' & HR' & Hwin').
  exists output, s'. split_and!; try done.
  cbn [step] in Hrun. rewrite Run_spec in Hrun by done.
  injection Hrun as Hout <-.
  pose proof (window_after_insert input s Hwf) as Hwin. fold win in Hwin.
  unfold after_adapt. cbn [pWeights Error set_BufferIdx set_pWeights set_Error
    StepSize Regularization pBuffer].
  change (window (set_Error _ (after_insert input s)))
    with (window (after_insert input s)).
  change (pWeights (after_insert input s)) with (pWeights s).
  change (StepSize (after_insert input s)) with (StepSize s).
  change (Regularization (after_insert input s)) with (Regularization s).
  rewrite energy_window, dot_inner, Hwin.
  pose proof (inner_self_nonneg win) as Hnn.
  set (den := (Regularization s + inner win win)%R).
  set (e := (inner target win - inner (pWeights s) win)%R).
  change (zip_with (nlms (StepSize s) (Regularization s) (inner win win) e)
            (pWeights s) win)
    with (zip_with (λ a b, a + StepSize s / den * e * b)%R (pWeights s) win).
  rewrite sqdist_nlms
    by (unfold win; cbn; rewrite ?length_take, ?length_window; lia).
  fold e.
  assert (0 < den)%R as Hden by (unfold den; lra).
  pose proof (contraction_factor (StepSize s) den (inner win win) Hstep
                ltac:(unfold den; lra) Hden) as Hf.
  pose proof (Rinv_0_lt_compat den Hden) as Hinv.
  set (k := (StepSize s / den)%R) in *.
  assert (0 <= k)%R as Hk by (unfold k, Rdiv; nra).
  assert (0 <= 2 - k * inner win win)%R as H2 by lra.
  assert (0 <= k * (e * e))%R as Hke by nra.
  pose proof (Rmult_le_pos _ _ Hke H2) as Hprod.
  nra.
Qed.

(** X9.  The loop of the test in exact arithmetic.  When every desired sample is
    the response of a fixed filter to the inputs so far, with a step size in
    [0, 2] and a regularization above 0, the squared distance from the
    weights to that filter (the numerator of the misalignment) never grows:
    after every call, and at the end, it is at most what it was at the
    start. *)
Theorem identification_never_loses_ground (target inputs : list R) s :
  wf s →
  length target = Length s →
  (0 <= StepSize s <= 2)%R →
  (0 < Regularization s)%R →
  ∃ obs s',
    drive (reference_calls target (window s) inputs) s = Some (obs, s') ∧
    length obs = length inputs ∧
    (sqdist target (pWeights s') <= sqdist target (pWeights s))%R ∧
    Forall (λ o : observation R,
              (sqdist target o.2 <= sqdist target (pWeights s))%R) obs.
Proof.
  revert s. induction inputs as [|x inputs IH]; intros s Hwf Htarget Hstep Hreg.
  - exists [], s. split_and!; [done|done|lra|constructor].
  - pose proof Hwf as (_ & Hbuf & _).
    destruct (Run_towards_target s target x Hwf Htarget Hstep Hreg)
      as (output & s1 & Hrun & Hwf1 & HL1 & HS1 & HR1 & Hwin1 & Hle1).
    destruct (IH s1 Hwf1) as (obs & s' & Hdrive & Hlen & Hle & Hobs);
      [congruence|by rewrite HS1|by rewrite HR1|].
    cbn [reference_calls]. rewrite length_window, Hbuf.
    cbn [drive]. rewrite Hrun. cbn [mbind option_bind].
    rewrite <- Hwin1, Hdrive.
    cbn [mbind option_bind]. eexists _, s'. split; [reflexivity|].
    split_and!; [cbn; lia|lra|].
    apply Forall_cons. split; [done|].
    eapply Forall_impl; [exact Hobs|]. cbn. intros o Ho. lra.
Qed.

Lemma identification_never_loses_ground_witness :
  ∃ obs s',
    drive (reference_calls [1; -1] [0; 0] [1; 2; 3])%R
      (mkAfData 0.5 1 2 [0; 0] 0 [0; 0] 0)%R = Some (obs, s') ∧
    (sqdist [1; -1] (pWeights s') <= sqdist [1; -1] [0; 0])%R.
Proof.
  destruct (identification_never_loses_ground [1; -1]%R [1; 2; 3]%R
              (mkAfData 0.5 1 2 [0; 0] 0 [0; 0] 0)%R)
    as (obs & s' & Hdrive & _ & Hle & _).
  - unfold wf. split_and!; [solve_taps|done..].
  - reflexivity.
  - cbn. lra.
  - cbn. lra.
  - exists obs, s'. split; [exact Hdrive|exact Hle].
Defined.
End Update.

(** ** Not-a-number, in binary64 *)

Section NotANumber.
Implicit Types (s : AfData float) (c : call float) (x y w : float).

Lemma nan_add x : (nan + x)%float = nan.
Proof. apply is_nan_spec. by rewrite FloatAxioms.add_spec. Qed.

Lemma sub_nan x : (x - nan)%float = nan.
Proof.
  apply is_nan_spec. rewrite FloatAxioms.sub_spec.
  change (Prim2SF nan) with S754_nan. by destruct (Prim2SF x).
Qed.

Lemma nan_mul x : (nan * x)%float = nan.
Proof. apply is_nan_spec. by rewrite FloatAxioms.mul_spec. Qed.

Lemma mul_nan x : (x * nan)%float = nan.
Proof.
  apply is_nan_spec. rewrite FloatAxioms.mul_spec.
  change (Prim2SF nan) with S754_nan. by destruct (Prim2SF x).
Qed.

Lemma nlms_nan_error stepSize regularization sn w x :
  nlms stepSize regularization sn nan w x = nan.
Proof.
  unfold nlms. cbn [s_add s_mul s_div float_Scalar].
  by rewrite mul_nan, nan_mul, add_nan.
Qed.

Lemma nlms_nan_weight stepSize regularization sn err x :
  nlms stepSize regularization sn err nan x = nan.
Proof. unfold nlms. cbn [s_add s_mul s_div float_Scalar]. apply nan_add. Qed.

Lemma zip_with_nan_error stepSize regularization sn (weights win : list float) :
  length win = length weights →
  zip_with (nlms stepSize regularization sn nan) weights win
  = replicate (length weights) nan.
Proof.
  revert win. induction weights as [|w weights IH]; intros [|x win] Hlen; try done.
  cbn [zip_with length replicate].
  rewrite nlms_nan_error, IH; [done|]. cbn in Hlen. lia.
Qed.

Lemma zip_with_nan_weights stepSize regularization sn err n (win : list float) :
  length win = n →
  zip_with (nlms stepSize regularization sn err) (replicate n nan) win
  = replicate n nan.
Proof.
  revert win. induction n as [|n IH]; intros [|x win] Hlen; try done.
  cbn [zip_with replicate].
  rewrite nlms_nan_weight, IH; [done|]. cbn in Hlen. lia.
Qed.

Lemma dot_nan_weights n x (win : list float) :
  dot (replicate (S n) nan) (x :: win) = nan.
Proof.
  unfold dot. cbn [replicate zip zip_with foldr fst snd s_add s_mul float_Scalar].
  by rewrite nan_mul, add_nan.
Qed.

Lemma dot_nan_input w (weights win : list float) :
  dot (w :: weights) (nan :: win) = nan.
Proof.
  unfold dot. cbn [zip zip_with foldr fst snd s_add s_mul float_Scalar].
  by rewrite mul_nan, add_nan.
Qed.

(** A call that brings a NaN in: [AdaptiveFilterRun] through its input,
    [AdaptiveFilterRunErrorIn] through its error. *)
Lemma poisoned_call c s :
  wf s →
  match c with
  | CallRun input _ => input = nan
  | CallRunErrorIn _ error => error = nan
  end →
  ∃ s',
    step c s = Some (nan, s') ∧ wf s' ∧ Length s' = Length s ∧
    pWeights s' = replicate (Length s) nan.
Proof.
  intros Hwf Hc. pose proof Hwf as ([HL HM] & Hbuf & Hw).
  destruct c as [input desired|input error]; subst; cbn [step].
  - rewrite Run_spec by done. cbn zeta.
    pose proof (window_after_insert nan s Hwf) as Hwin.
    assert (dot (pWeights s) (window (after_insert nan s)) = nan) as ->.
    { rewrite Hwin. destruct (pWeights s) as [|w weights]; [cbn in Hw; lia|].
      apply dot_nan_input. }
    eexists. split; [reflexivity|].
    split; [by apply wf_after_adapt, wf_set_Error, wf_after_insert|].
    split; [done|].
    unfold after_adapt. cbn [pWeights set_BufferIdx set_pWeights].
    change (Error (set_Error _ _)) with (desired - nan)%float.
    rewrite !sub_nan.
    change (pWeights (set_Error nan (after_insert nan s))) with (pWeights s).
    rewrite zip_with_nan_error; [by rewrite Hw|].
    change (window (set_Error nan (after_insert nan s)))
      with (window (after_insert nan s)).
    rewrite length_window. cbn. rewrite length_insert. lia.
  - rewrite RunErrorIn_spec by done. cbn zeta.
    assert (wf (after_adapt (set_Error nan s))) as Hwf1
      by (by apply wf_after_adapt, wf_set_Error).
    assert (pWeights (after_adapt (set_Error nan s)) = replicate (Length s) nan)
      as Hnan.
    { unfold after_adapt. cbn [pWeights set_BufferIdx set_pWeights].
      change (Error (set_Error nan s)) with nan.
      change (pWeights (set_Error nan s)) with (pWeights s).
      rewrite zip_with_nan_error; [by rewrite Hw|].
      change (window (set_Error nan s)) with (window s).
      rewrite length_window. lia. }
    rewrite Hnan, (window_after_insert input _ Hwf1).
    destruct (Length s) as [|n] eqn:HLs; [lia|].
    rewrite dot_nan_weights. eexists. split; [reflexivity|].
    split; [by apply wf_after_insert|]. split; [done|].
    change (pWeights (after_insert input ?t)) with (pWeights t).
    exact Hnan.
Qed.

(** Once every weight is NaN, every call returns NaN and leaves them so. *)
Lemma nan_weights_call c s :
  wf s → pWeights s = replicate (Length s) nan →
  ∃ s',
    step c s = Some (nan, s') ∧ wf s' ∧ Length s' = Length s ∧
    pWeights s' = replicate (Length s) nan.
Proof.
  intros Hwf Hnan. pose proof Hwf as ([HL HM] & Hbuf & Hw).
  destruct c as [input desired|input error]; cbn [step].
  - rewrite Run_spec by done. cbn zeta.
    pose proof (window_after_insert input s Hwf) as Hwin.
    assert (dot (pWeights s) (window (after_insert input s)) = nan) as ->.
    { rewrite Hwin, Hnan. destruct (Length s) as [|n]; [lia|].
      apply dot_nan_weights. }
    eexists. split; [reflexivity|].
    split; [by apply wf_after_adapt, wf_set_Error, wf_after_insert|].
    split; [done|].
    unfold after_adapt. cbn [pWeights set_BufferIdx set_pWeights].
    change (pWeights (set_Error ?e (after_insert input s))) with (pWeights s).
    rewrite Hnan. apply zip_with_nan_weights.
    change (window (set_Error ?e (after_insert input s)))
      with (window (after_insert input s)).
    rewrite length_window. cbn. rewrite length_insert. lia.
  - rewrite RunErrorIn_spec by done. cbn zeta.
    assert (wf (after_adapt (set_Error error s))) as Hwf1
      by (by apply wf_after_adapt, wf_set_Error).
    assert (pWeights (after_adapt (set_Error error s)) = replicate (Length s) nan)
      as Hnan'.
    { unfold after_adapt. cbn [pWeights set_BufferIdx set_pWeights].
      change (pWeights (set_Error error s)) with (pWeights s).
      rewrite Hnan. apply zip_with_nan_weights.
      change (window (set_Error error s)) with (window s).
      rewrite length_window. lia. }
    rewrite Hnan', (window_after_insert input _ Hwf1).
    destruct (Length s) as [|n] eqn:HLs; [lia|].
    rewrite dot_nan_weights. eexists. split; [reflexivity|].
    split; [by apply wf_after_insert|]. split; [done|].
    change (pWeights (after_insert input ?t)) with (pWeights t).
    exact Hnan'.
Qed.

Lemma drive_nan_weights cs : ∀ s,
  wf s → pWeights s = replicate (Length s) nan →
  ∃ obs s',
    drive cs s = Some (obs, s') ∧
    Forall (λ o : observation float,
              o.1.1 = nan ∧ o.2 = replicate (Length s) nan) obs ∧
    pWeights s' = replicate (Length s) nan.
Proof.
  induction cs as [|c cs IH]; intros s Hwf Hnan.
  - exists [], s. by split_and!.
  - destruct (nan_weights_call c s Hwf Hnan) as (s1 & Hstep & Hwf1 & HL1 & Hnan1).
    destruct (IH s1 Hwf1) as (obs & s' & Hdrive & Hobs & Hnan');
      [by rewrite HL1|].
    rewrite HL1 in Hobs, Hnan'.
    cbn [drive]. rewrite Hstep. cbn [mbind option_bind]. rewrite Hdrive.
    cbn [mbind option_bind]. eexists _, s'. split; [reflexivity|].
    split; [|done]. apply Forall_cons. split; [|done]. by cbn.
Qed.

(** X10.  A NaN never leaves.  From the call that brings one in (as the input of
    [AdaptiveFilterRun] or as the error of [AdaptiveFilterRunErrorIn]), and
    whatever is passed afterwards, every call returns NaN and leaves every
    weight NaN. *)
Theorem nan_is_absorbing c cs s :
  wf s →
  match c with
  | CallRun input _ => input = nan
  | CallRunErrorIn _ error => error = nan
  end →
  ∃ obs s',
    drive (c :: cs) s = Some (obs, s') ∧
    length obs = S (length cs) ∧
    Forall (λ o : observation float,
              o.1.1 = nan ∧ o.2 = replicate (Length s) nan) obs ∧
    pWeights s' = replicate (Length s) nan.
Proof.
  intros Hwf Hc.
  destruct (poisoned_call c s Hwf Hc) as (s1 & Hstep & Hwf1 & HL1 & Hnan1).
  destruct (drive_nan_weights cs s1 Hwf1) as (obs & s' & Hdrive & Hobs & Hnan');
    [by rewrite HL1|].
  rewrite HL1 in Hobs, Hnan'.
  destruct (drive_window cs s1 Hwf1) as (obs' & s'' & Hdrive' & _ & _ & Hlen & _).
  assert (obs' = obs) as -> by congruence.
  cbn [drive]. rewrite Hstep. cbn [mbind option_bind]. rewrite Hdrive.
  cbn [mbind option_bind]. eexists _, s'. split; [reflexivity|].
  split; [cbn; lia|]. split; [|done].
  apply Forall_cons. split; [|done]. by cbn.
Qed.
End NotANumber.

Lemma nan_is_absorbing_witness :
  ∃ obs s',
    drive [CallRun nan 1%float; CallRun 1%float 2%float; CallRunErrorIn 3%float 0%float]
      (fresh 0.5%float 1%float 2) = Some (obs, s') ∧
    pWeights s' = [nan; nan].
Proof.
  destruct (nan_is_absorbing (CallRun nan 1%float)
              [CallRun 1%float 2%float; CallRunErrorIn 3%float 0%float]
              (fresh 0.5%float 1%float 2))
    as (obs & s' & Hdrive & _ & _ & Hnan).
  - apply wf_fresh. solve_taps.
  - reflexivity.
  - exists obs, s'. split; [exact Hdrive|exact Hnan].
Defined.

(** ** The test harness *)

Section TestHarness.
Implicit Types (t : AdaptiveFilterTest.TestState).

Lemma test_Filter_loop_engine n : ∀ output t,
  AdaptiveFilterTest.Filter_loop n output t =
    '(o, a) ← Filter_loop n output (test_filter t);
    Some (o, AdaptiveFilterTest.set_testBufferIdx (BufferIdx a) t).
Proof.
  induction n as [|i IH]; intros output t; [by destruct t|].
  cbn [AdaptiveFilterTest.Filter_loop Filter_loop].
  unfold wrap_index, wrap.
  change (Length (test_filter t)) with AdaptiveFilterTest.NUM_TAPS.
  change (BufferIdx (test_filter t)) with (AdaptiveFilterTest.testBufferIdx t).
  destruct (decide (AdaptiveFilterTest.NUM_TAPS ≤ AdaptiveFilterTest.testBufferIdx t)) as [Hge|Hlt].
  - change (pWeights (set_BufferIdx 0 (test_filter t))) with (AdaptiveFilterTest.testWeights t).
    change (AdaptiveFilterTest.testWeights (AdaptiveFilterTest.set_testBufferIdx 0 t)) with (AdaptiveFilterTest.testWeights t).
    destruct (AdaptiveFilterTest.testWeights t !! i) as [w|] eqn:Hw; [|done].
    cbn [mbind option_bind].
    change (pBuffer (set_BufferIdx 0 (test_filter t))) with (AdaptiveFilterTest.testBuffer t).
    change (BufferIdx (set_BufferIdx 0 (test_filter t))) with 0.
    change (AdaptiveFilterTest.testBuffer (AdaptiveFilterTest.set_testBufferIdx 0 t)) with (AdaptiveFilterTest.testBuffer t).
    change (AdaptiveFilterTest.testBufferIdx (AdaptiveFilterTest.set_testBufferIdx 0 t)) with 0.
    destruct (AdaptiveFilterTest.testBuffer t !! 0) as [x|] eqn:Hx; [|done].
    cbn [mbind option_bind]. rewrite IH.
    change (test_filter (AdaptiveFilterTest.set_testBufferIdx (uint_incr 0) (AdaptiveFilterTest.set_testBufferIdx 0 t)))
      with (set_BufferIdx (uint_incr 0) (set_BufferIdx 0 (test_filter t))).
    cbn [s_add s_mul float_Scalar].
    by destruct (Filter_loop i _ _) as [[o a]|].
  - change (pWeights (set_BufferIdx (AdaptiveFilterTest.testBufferIdx t) (test_filter t)))
      with (AdaptiveFilterTest.testWeights t).
    destruct (AdaptiveFilterTest.testWeights t !! i) as [w|] eqn:Hw; [|done].
    cbn [mbind option_bind].
    change (pBuffer (set_BufferIdx (AdaptiveFilterTest.testBufferIdx t) (test_filter t)))
      with (AdaptiveFilterTest.testBuffer t).
    change (BufferIdx (set_BufferIdx (AdaptiveFilterTest.testBufferIdx t) (test_filter t)))
      with (AdaptiveFilterTest.testBufferIdx t).
    destruct (AdaptiveFilterTest.testBuffer t !! AdaptiveFilterTest.testBufferIdx t) as [x|] eqn:Hx; [|done].
    cbn [mbind option_bind]. rewrite IH.
    change (test_filter (AdaptiveFilterTest.set_testBufferIdx (uint_incr (AdaptiveFilterTest.testBufferIdx t)) t))
      with (set_BufferIdx (uint_incr (AdaptiveFilterTest.testBufferIdx t))
              (set_BufferIdx (AdaptiveFilterTest.testBufferIdx t) (test_filter t))).
    cbn [s_add s_mul float_Scalar].
    by destruct (Filter_loop i _ _) as [[o a]|].
Qed.

Lemma test_Filter_engine input t :
  AdaptiveFilterTest.Filter input t =
    '(output, a) ← Filter input (test_filter t);
    Some (output, AdaptiveFilterTest.set_testBufferIdx (BufferIdx a) (AdaptiveFilterTest.set_testBuffer (pBuffer a) t)).
Proof.
  unfold AdaptiveFilterTest.Filter, Filter, Filter_insert, wrap_index, wrap.
  change (Length (test_filter t)) with AdaptiveFilterTest.NUM_TAPS.
  change (BufferIdx (test_filter t)) with (AdaptiveFilterTest.testBufferIdx t).
  destruct (decide (AdaptiveFilterTest.NUM_TAPS ≤ AdaptiveFilterTest.testBufferIdx t)) as [Hge|Hlt].
  - change (pBuffer (set_BufferIdx 0 (test_filter t))) with (AdaptiveFilterTest.testBuffer t).
    change (BufferIdx (set_BufferIdx 0 (test_filter t))) with 0.
    change (AdaptiveFilterTest.testBuffer (AdaptiveFilterTest.set_testBufferIdx 0 t)) with (AdaptiveFilterTest.testBuffer t).
    change (AdaptiveFilterTest.testBufferIdx (AdaptiveFilterTest.set_testBufferIdx 0 t)) with 0.
    destruct (AdaptiveFilterTest.testBuffer t !! 0) as [x|] eqn:Hx; [|done].
    cbn [mbind option_bind]. rewrite test_Filter_loop_engine.
    change (countdown _) with (countdown AdaptiveFilterTest.NUM_TAPS).
    replace (countdown AdaptiveFilterTest.NUM_TAPS) with AdaptiveFilterTest.NUM_TAPS by (vm_compute; reflexivity).
    change (test_filter (AdaptiveFilterTest.set_testBufferIdx (uint_incr 0)
              (AdaptiveFilterTest.set_testBuffer (<[0:=input]> (AdaptiveFilterTest.testBuffer t)) (AdaptiveFilterTest.set_testBufferIdx 0 t))))
      with (set_BufferIdx (uint_incr 0)
              (set_pBuffer (<[0:=input]> (AdaptiveFilterTest.testBuffer t))
                 (set_BufferIdx 0 (test_filter t)))).
    change (@s_zero float _) with 0%float.
    destruct (Filter_loop AdaptiveFilterTest.NUM_TAPS _ _) as [[o a]|] eqn:Hloop;
      [|done].
    cbn [mbind option_bind].
    apply Filter_loop_frame in Hloop as (-> & _ & _). done.
  - change (pBuffer (set_BufferIdx (AdaptiveFilterTest.testBufferIdx t) (test_filter t)))
      with (AdaptiveFilterTest.testBuffer t).
    change (BufferIdx (set_BufferIdx (AdaptiveFilterTest.testBufferIdx t) (test_filter t)))
      with (AdaptiveFilterTest.testBufferIdx t).
    destruct (AdaptiveFilterTest.testBuffer t !! AdaptiveFilterTest.testBufferIdx t) as [x|] eqn:Hx; [|done].
    cbn [mbind option_bind]. rewrite test_Filter_loop_engine.
    change (countdown _) with (countdown AdaptiveFilterTest.NUM_TAPS).
    replace (countdown AdaptiveFilterTest.NUM_TAPS) with AdaptiveFilterTest.NUM_TAPS by (vm_compute; reflexivity).
    change (test_filter (AdaptiveFilterTest.set_testBufferIdx (uint_incr (AdaptiveFilterTest.testBufferIdx t))
              (AdaptiveFilterTest.set_testBuffer (<[AdaptiveFilterTest.testBufferIdx t:=input]> (AdaptiveFilterTest.testBuffer t)) t)))
      with (set_BufferIdx (uint_incr (AdaptiveFilterTest.testBufferIdx t))
              (set_pBuffer (<[AdaptiveFilterTest.testBufferIdx t:=input]> (AdaptiveFilterTest.testBuffer t))
                 (set_BufferIdx (AdaptiveFilterTest.testBufferIdx t) (test_filter t)))).
    change (@s_zero float _) with 0%float.
    destruct (Filter_loop AdaptiveFilterTest.NUM_TAPS _ _) as [[o a]|] eqn:Hloop;
      [|done].
    cbn [mbind option_bind].
    apply Filter_loop_frame in Hloop as (-> & _ & _). done.
Qed.

(** X11.  The test's own [Filter] is the engine's [Filter], run on the statics of
    the test: the same output, the same buffer and the same index
    afterwards, and an access out of range in the one exactly when there is
    one in the other. *)
Theorem test_Filter_is_the_engine_Filter input t :
  AdaptiveFilterTest.Filter input t =
    '(output, a) ← Filter input (test_filter t);
    Some (output, AdaptiveFilterTest.set_testBufferIdx (BufferIdx a) (AdaptiveFilterTest.set_testBuffer (pBuffer a) t)).
Proof. exact (test_Filter_engine input t). Qed.

Lemma wf_test_filter t : in_step t → wf (test_filter t).
Proof.
  intros (Hwf & HL & Hw & Hbuf & Hidx). destruct Hwf as (_ & Hlen & _).
  unfold wf, test_filter. cbn [Length pBuffer pWeights].
  split_and!; [unfold AdaptiveFilterTest.NUM_TAPS; solve_taps| |done].
  by rewrite Hbuf, Hlen, HL.
Qed.

Lemma after_insert_test_filter input t :
  in_step t →
  pBuffer (after_insert input (test_filter t))
    = pBuffer (after_insert input (AdaptiveFilterTest.Adata t)) ∧
  BufferIdx (after_insert input (test_filter t))
    = BufferIdx (after_insert input (AdaptiveFilterTest.Adata t)) ∧
  window (after_insert input (test_filter t))
    = window (after_insert input (AdaptiveFilterTest.Adata t)).
Proof.
  intros (Hwf & HL & Hw & Hbuf & Hidx).
  unfold window, oldest_first, after_insert, test_filter.
  cbn [Length BufferIdx pBuffer set_BufferIdx set_pBuffer StepSize
       Regularization pWeights Error].
  by rewrite Hbuf, Hidx, HL.
Qed.

Lemma ComputeMisalignment_loop_spec t n : ∀ i diffSqrdNorm testSqrdNorm,
  i + n ≤ length (AdaptiveFilterTest.testWeights t) →
  i + n ≤ length (pWeights (AdaptiveFilterTest.Adata t)) →
  AdaptiveFilterTest.ComputeMisalignment_loop n i diffSqrdNorm testSqrdNorm t =
    Some (foldl (λ acc d, acc + d * d) diffSqrdNorm
            (take n (drop i (zip_with PrimFloat.sub
                               (AdaptiveFilterTest.testWeights t)
                               (pWeights (AdaptiveFilterTest.Adata t)))))
          / foldl (λ acc x, acc + x * x) testSqrdNorm
              (take n (drop i (AdaptiveFilterTest.testWeights t))))%float.
Proof.
  induction n as [|n IH]; intros i d e Htw Hw; [done|].
  destruct (lookup_lt_is_Some_2 (AdaptiveFilterTest.testWeights t) i)
    as [tw Htwi]; [lia|].
  destruct (lookup_lt_is_Some_2 (pWeights (AdaptiveFilterTest.Adata t)) i)
    as [w Hwi]; [lia|].
  cbn [AdaptiveFilterTest.ComputeMisalignment_loop]. rewrite Htwi, Hwi.
  cbn [mbind option_bind]. rewrite IH by lia.
  assert (zip_with PrimFloat.sub (AdaptiveFilterTest.testWeights t)
            (pWeights (AdaptiveFilterTest.Adata t)) !! i = Some (tw - w)%float)
    as Hz by (by rewrite lookup_zip_with, Htwi, Hwi).
  by rewrite (drop_S _ _ _ Htwi), (drop_S _ _ _ Hz).
Qed.

(** X12.  [ComputeMisalignment] is what its note says: the squared norm of the
    difference of the two weight vectors over the squared norm of the test
    weights, each summed from index 0 upwards, for [NUM_TAPS] weights on
    each side. *)
Theorem ComputeMisalignment_is_the_normalized_distance t :
  length (AdaptiveFilterTest.testWeights t) = AdaptiveFilterTest.NUM_TAPS →
  length (pWeights (AdaptiveFilterTest.Adata t)) = AdaptiveFilterTest.NUM_TAPS →
  AdaptiveFilterTest.ComputeMisalignment t =
    Some (energy (zip_with PrimFloat.sub (AdaptiveFilterTest.testWeights t)
                    (pWeights (AdaptiveFilterTest.Adata t)))
          / energy (AdaptiveFilterTest.testWeights t))%float.
Proof.
  intros Htw Hw. unfold AdaptiveFilterTest.ComputeMisalignment.
  rewrite ComputeMisalignment_loop_spec by lia.
  rewrite !drop_0, !take_ge by (rewrite ?length_zip_with; lia).
  done.
Qed.

(** One pass of the loop of [AdaptiveFilterTestRun], for any generator. *)
Lemma iteration_spec (rand : Z → Z * Z) (RAND_MAX : Z) n t :
  in_step t →
  let input := (AdaptiveFilterTest.random_sample rand RAND_MAX t).1 in
  let win := input :: take (AdaptiveFilterTest.NUM_TAPS - 1)
                        (window (AdaptiveFilterTest.Adata t)) in
  ∃ t1,
    AdaptiveFilterTest.AdaptiveFilterTestRun_loop rand RAND_MAX (S n) t
      = AdaptiveFilterTest.AdaptiveFilterTestRun_loop rand RAND_MAX n t1 ∧
    in_step t1 ∧
    AdaptiveFilterTest.testWeights t1 = AdaptiveFilterTest.testWeights t ∧
    StepSize (AdaptiveFilterTest.Adata t1) = StepSize (AdaptiveFilterTest.Adata t) ∧
    Regularization (AdaptiveFilterTest.Adata t1)
      = Regularization (AdaptiveFilterTest.Adata t) ∧
    window (AdaptiveFilterTest.Adata t1) = win ∧
    Error (AdaptiveFilterTest.Adata t1)
      = (dot (AdaptiveFilterTest.testWeights t) win
         - dot (pWeights (AdaptiveFilterTest.Adata t)) win)%float ∧
    AdaptiveFilterTest.squaredErrorPower t1
      = (AdaptiveFilterTest.DB_EPSILON
         + Error (AdaptiveFilterTest.Adata t1) * Error (AdaptiveFilterTest.Adata t1))%float.
Proof.
  intros Hstep. cbn zeta.
  cbn [AdaptiveFilterTest.AdaptiveFilterTestRun_loop].
  unfold AdaptiveFilterTest.random_sample.
  destruct (rand (AdaptiveFilterTest.next t)) as [r nx]. cbn [fst].
  set (input := (2 * AdaptiveFilterTest.double_of_int r
                 / AdaptiveFilterTest.double_of_int RAND_MAX - 1)%float).
  set (t0 := AdaptiveFilterTest.set_next nx t).
  assert (in_step t0) as Hstep0 by exact Hstep.
  pose proof Hstep as (Hwf & HL & Hw & Hbuf & Hidx).
  pose proof Hwf as ([HL1 _] & Hlen & Hwlen).
  destruct (after_insert_test_filter input t0 Hstep0) as (Hb & Hi & Hwin).
  rewrite test_Filter_engine.
  rewrite Filter_spec by (by apply wf_test_filter). cbn [mbind option_bind].
  change (AdaptiveFilterTest.Adata (AdaptiveFilterTest.set_testBufferIdx _ _))
    with (AdaptiveFilterTest.Adata t).
  rewrite Run_spec by done. cbn zeta. cbn [mbind option_bind].
  change (pWeights (test_filter t0)) with (AdaptiveFilterTest.testWeights t).
  rewrite Hwin. change (AdaptiveFilterTest.Adata t0) with (AdaptiveFilterTest.Adata t).
  rewrite (window_after_insert input _ Hwf), HL.
  set (win := input :: take (AdaptiveFilterTest.NUM_TAPS - 1)
                         (window (AdaptiveFilterTest.Adata t))).
  set (a := after_adapt (set_Error _ (after_insert input (AdaptiveFilterTest.Adata t)))).
  assert (wf a) as Hwfa
    by (by apply wf_after_adapt, wf_set_Error, wf_after_insert).
  assert (Length a = AdaptiveFilterTest.NUM_TAPS) as HLa by exact HL.
  unfold AdaptiveFilterTest.ComputeMisalignment.
  rewrite ComputeMisalignment_loop_spec;
    [|cbn [AdaptiveFilterTest.testWeights AdaptiveFilterTest.set_Adata
           AdaptiveFilterTest.set_testBufferIdx AdaptiveFilterTest.set_testBuffer
           AdaptiveFilterTest.set_next t0]; lia
     |destruct Hwfa as (_ & _ & Hwa);
      cbn [AdaptiveFilterTest.Adata AdaptiveFilterTest.set_Adata]; lia].
  cbn [mbind option_bind]. eexists. split; [reflexivity|].
  assert (BufferIdx a = BufferIdx (after_insert input (AdaptiveFilterTest.Adata t)))
    as Hia.
  { unfold a, after_adapt. cbn [BufferIdx set_BufferIdx set_pWeights set_Error
      after_insert Length set_pBuffer].
    rewrite decide_True; [done|].
    pose proof (wrap_lt (Length (AdaptiveFilterTest.Adata t))
                  (BufferIdx (AdaptiveFilterTest.Adata t)) HL1). lia. }
  split_and!.
  - unfold in_step. cbn [AdaptiveFilterTest.Adata AdaptiveFilterTest.set_metrics
      AdaptiveFilterTest.set_Adata AdaptiveFilterTest.testWeights
      AdaptiveFilterTest.testBuffer AdaptiveFilterTest.testBufferIdx
      AdaptiveFilterTest.set_testBufferIdx AdaptiveFilterTest.set_testBuffer].
    split_and!; [done|done|exact Hw| |].
    + rewrite Hb. done.
    + rewrite Hi, Hia. done.
  - done.
  - done.
  - done.
  - cbn [AdaptiveFilterTest.Adata AdaptiveFilterTest.set_metrics
      AdaptiveFilterTest.set_Adata].
    unfold a. rewrite window_after_adapt by exact HL1.
    change (window (set_Error ?e ?s)) with (window s).
    rewrite (window_after_insert input _ Hwf), HL. done.
  - done.
  - done.
Qed.

(** X13.  What the test measures.  In every pass of the loop, for any generator,
    the test's filter and the engine see the same window, and the error
    that the engine stores and adapts on is the difference of the two
    responses to it; the squared-error metric is [DB_EPSILON] plus its
    square. *)
Theorem the_error_compares_both_filters (rand : Z → Z * Z) (RAND_MAX : Z) t :
  in_step t →
  let input := (AdaptiveFilterTest.random_sample rand RAND_MAX t).1 in
  let win := input :: take (AdaptiveFilterTest.NUM_TAPS - 1)
                        (window (AdaptiveFilterTest.Adata t)) in
  ∃ t',
    AdaptiveFilterTest.AdaptiveFilterTestRun_loop rand RAND_MAX 1 t = Some t' ∧
    in_step t' ∧
    window (AdaptiveFilterTest.Adata t') = win ∧
    Error (AdaptiveFilterTest.Adata t')
      = (dot (AdaptiveFilterTest.testWeights t) win
         - dot (pWeights (AdaptiveFilterTest.Adata t)) win)%float ∧
    AdaptiveFilterTest.squaredErrorPower t'
      = (AdaptiveFilterTest.DB_EPSILON
         + Error (AdaptiveFilterTest.Adata t') * Error (AdaptiveFilterTest.Adata t'))%float.
Proof.
  intros Hstep input win.
  destruct (iteration_spec rand RAND_MAX 0 t Hstep)
    as (t1 & Hrun & Hstep1 & _ & _ & _ & Hwin & Herr & Hse).
  exists t1. split_and!; done.
Qed.

Lemma loop_in_step (rand : Z → Z * Z) (RAND_MAX : Z) n : ∀ t,
  in_step t →
  ∃ t',
    AdaptiveFilterTest.AdaptiveFilterTestRun_loop rand RAND_MAX n t = Some t' ∧
    in_step t' ∧
    AdaptiveFilterTest.testWeights t' = AdaptiveFilterTest.testWeights t ∧
    StepSize (AdaptiveFilterTest.Adata t') = StepSize (AdaptiveFilterTest.Adata t) ∧
    Regularization (AdaptiveFilterTest.Adata t')
      = Regularization (AdaptiveFilterTest.Adata t).
Proof.
  induction n as [|n IH]; intros t Hstep.
  - by exists t.
  - destruct (iteration_spec rand RAND_MAX n t Hstep)
      as (t1 & Hrun & Hstep1 & Htw1 & HS1 & HR1 & _).
    destruct (IH t1 Hstep1) as (t' & Hloop & Hstep' & Htw' & HS' & HR').
    exists t'. rewrite Hrun. split_and!; [done|done|congruence..].
Qed.

Lemma InitWeights_loop_spec (rand : Z → Z * Z) (RAND_MAX : Z) n : ∀ i t,
  i + n ≤ length (AdaptiveFilterTest.testWeights t) →
  ∃ t',
    AdaptiveFilterTest.InitWeights_loop rand RAND_MAX n i t = Some t' ∧
    length (AdaptiveFilterTest.testWeights t')
      = length (AdaptiveFilterTest.testWeights t) ∧
    AdaptiveFilterTest.testBuffer t' = AdaptiveFilterTest.testBuffer t ∧
    AdaptiveFilterTest.testBufferIdx t' = AdaptiveFilterTest.testBufferIdx t ∧
    AdaptiveFilterTest.Adata t' = AdaptiveFilterTest.Adata t.
Proof.
  induction n as [|n IH]; intros i t Hle; [by exists t|].
  cbn [AdaptiveFilterTest.InitWeights_loop].
  unfold AdaptiveFilterTest.random_sample.
  destruct (rand (AdaptiveFilterTest.next t)) as [r nx].
  change (AdaptiveFilterTest.testWeights (AdaptiveFilterTest.set_next nx t))
    with (AdaptiveFilterTest.testWeights t).
  rewrite decide_True by lia.
  edestruct (IH (S i)) as (t' & Hloop & Hlen & Hbuf & Hidx & Ha);
    [|exists t'; split; [exact Hloop|]].
  - cbn [AdaptiveFilterTest.testWeights AdaptiveFilterTest.set_testWeights].
    rewrite length_insert. lia.
  - cbn [AdaptiveFilterTest.testWeights AdaptiveFilterTest.set_testWeights]
      in Hlen.
    rewrite length_insert in Hlen. by split_and!.
Qed.

(** X14.  The test is safe with every C library.  Whatever [rand] returns and
    whatever [RAND_MAX] is, [AdaptiveFilterTestRun] gets through its 5000
    passes without reading or writing outside an array; the test's buffer
    and the engine's then hold the same samples at the same index, and the
    engine still has the step size and the regularization of the test. *)
Theorem the_test_runs_with_every_generator (rand : Z → Z * Z) (RAND_MAX : Z) :
  ∃ t,
    AdaptiveFilterTest.AdaptiveFilterTestRun rand RAND_MAX = Some t ∧
    in_step t ∧
    StepSize (AdaptiveFilterTest.Adata t) = AdaptiveFilterTest.STEPSIZE ∧
    Regularization (AdaptiveFilterTest.Adata t) = AdaptiveFilterTest.REGULARIZATION.
Proof.
  unfold AdaptiveFilterTest.AdaptiveFilterTestRun, AdaptiveFilterTest.InitWeights.
  destruct (InitWeights_loop_spec rand RAND_MAX AdaptiveFilterTest.NUM_TAPS 0
              (AdaptiveFilterTest.set_next AdaptiveFilterTest.RAND_SEED
                 AdaptiveFilterTest.initial))
    as (t0 & Hinit & Hlen & Hbuf & Hidx & Ha); [vm_compute; lia|].
  rewrite Hinit. cbn [mbind option_bind].
  assert (in_step t0) as Hstep.
  { unfold in_step. rewrite Ha, Hbuf, Hidx, Hlen.
    split_and!; [|reflexivity..].
    unfold wf. split_and!; [change (taps_ok 30); solve_taps|reflexivity..]. }
  destruct (loop_in_step rand RAND_MAX AdaptiveFilterTest.ITERATIONS t0 Hstep)
    as (t & Hloop & Hstep' & _ & HS & HR).
  exists t. rewrite HS, HR, Ha. by split_and!.
Qed.
End TestHarness.

Lemma ComputeMisalignment_is_the_normalized_distance_witness :
  AdaptiveFilterTest.ComputeMisalignment
    (AdaptiveFilterTest.set_testWeights (replicate 30 1%float)
       AdaptiveFilterTest.initial)
  = Some (energy (zip_with PrimFloat.sub (replicate 30 1%float)
                    (replicate 30 0%float))
          / energy (replicate 30 1%float))%float.
Proof.
  apply (ComputeMisalignment_is_the_normalized_distance
           (AdaptiveFilterTest.set_testWeights (replicate 30 1%float)
              AdaptiveFilterTest.initial)); reflexivity.
Defined.

Lemma in_step_initial : in_step AdaptiveFilterTest.initial.
Proof.
  unfold in_step. split_and!; [|reflexivity..].
  unfold wf. split_and!; [change (taps_ok 30); solve_taps|reflexivity..].
Qed.

Lemma the_error_compares_both_filters_witness :
  ∃ t',
    AdaptiveFilterTest.AdaptiveFilterTestRun_loop
      AdaptiveFilterTest.bsd_rand AdaptiveFilterTest.bsd_RAND_MAX 1
      AdaptiveFilterTest.initial = Some t' ∧
    in_step t'.
Proof.
  destruct (the_error_compares_both_filters
              AdaptiveFilterTest.bsd_rand AdaptiveFilterTest.bsd_RAND_MAX
              AdaptiveFilterTest.initial in_step_initial)
    as (t' & Hrun & Hstep & _).
  exists t'. split; [exact Hrun|exact Hstep].
Defined.

(** ** The prototype on its own *)

Section Prototype.
Implicit Types (c : call R) (AF : Matlab.AdaptiveFir) (buffer weights : list R).

(** One method call on a prototype whose [Buffer] and [Weights] are columns
    of the same height and whose [StepSize] is a scalar. *)
Lemma prototype_step c AF buffer weights (stepSize : R) :
  Matlab.Buffer AF = Matlab.column buffer →
  Matlab.Weights AF = Matlab.column weights →
  Matlab.StepSize AF = Matlab.scalar stepSize →
  length weights = length buffer → 1 ≤ length buffer →
  ∃ Output AF' weights' error,
    Matlab.step c AF = Some (Output, AF') ∧
    Matlab.Buffer AF' = Matlab.column (call_input c :: removelast buffer) ∧
    Matlab.Weights AF' = Matlab.column weights' ∧
    Matlab.StepSize AF' = Matlab.scalar stepSize ∧
    Matlab.Error AF' = Matlab.scalar error ∧
    length weights' = length buffer ∧
    length (call_input c :: removelast buffer) = length buffer.
Proof.
  intros HB HW HS Hlen Hne.
  assert (length (call_input c :: removelast buffer) = length buffer) as Hshift.
  { rewrite removelast_firstn_len. cbn [length]. rewrite length_take. lia. }
  destruct c as [Input Desired|Input Error]; cbn [Matlab.step call_input] in *.
  - unfold Matlab.Run.
    rewrite (RunFilter_spec AF Input buffer weights) by done.
    cbn [mbind option_bind].
    erewrite (NLMS_spec _ (Input :: removelast buffer) weights stepSize);
      [|done..|congruence].
    cbn [mbind option_bind]. eexists _, _, _, _.
    split; [reflexivity|]. split_and!; try done.
    rewrite length_zip_with. lia.
  - unfold Matlab.RunErrorInput.
    erewrite (NLMS_spec _ buffer weights stepSize Error); [|done..].
    cbn [mbind option_bind].
    erewrite (RunFilter_spec _ Input buffer); [|done|done|..|done].
    2:{ rewrite length_zip_with. lia. }
    eexists _, _, _, _. split; [reflexivity|]. split_and!; try done.
    rewrite length_zip_with. lia.
Qed.

Lemma prototype_drive cs : ∀ AF buffer weights (stepSize : R),
  Matlab.Buffer AF = Matlab.column buffer →
  Matlab.Weights AF = Matlab.column weights →
  Matlab.StepSize AF = Matlab.scalar stepSize →
  length weights = length buffer → 1 ≤ length buffer →
  ∃ obs AF' weights',
    Matlab.drive cs AF = Some (obs, AF') ∧
    length obs = length cs ∧
    Matlab.Buffer AF'
      = Matlab.column (take (length buffer) (reverse (call_input <$> cs) ++ buffer)) ∧
    Matlab.Weights AF' = Matlab.column weights' ∧
    length weights' = length buffer ∧
    Matlab.StepSize AF' = Matlab.scalar stepSize.
Proof.
  induction cs as [|c cs IH]; intros AF buffer weights stepSize HB HW HS Hlen Hne.
  - exists [], AF, weights. split_and!; try done.
    cbn. by rewrite take_ge by lia.
  - destruct (prototype_step c AF buffer weights stepSize HB HW HS Hlen Hne)
      as (Output & AF1 & weights1 & error & Hstep & HB1 & HW1 & HS1 & HE1 & Hlen1 & Hshift).
    destruct (IH AF1 _ weights1 stepSize HB1 HW1 HS1) as
      (obs & AF' & weights' & Hdrive & Hobs & HB' & HW' & Hlen' & HS');
      [lia..|].
    cbn [Matlab.drive]. rewrite Hstep. cbn [mbind option_bind].
    rewrite HE1, HW1, as_column_column, Hdrive.
    cbn [mbind option_bind Matlab.as_scalar Matlab.scalar].
    eexists _, AF', weights'. split; [reflexivity|].
    split_and!; [cbn; lia| |done|lia|done].
    rewrite HB', Hshift. f_equal.
    rewrite fmap_cons, reverse_cons, <- app_assoc. cbn [app].
    rewrite removelast_firstn_len.
    rewrite !(cons_middle (call_input c)), !app_assoc.
    apply take_app_take. rewrite length_app. cbn. lia.
Qed.

(** X15.  The prototype on its own, for any number of weights from 1 upwards.
    Constructed from a column of weights and a scalar step size, it serves
    every sequence of [Run] and [RunErrorInput] calls; afterwards [Buffer] is
    still a column of the height of the weights and holds the inputs of the
    calls, newest first, over the zeros it began with, [Weights] is a column
    of the same height, and [StepSize] is as given. *)
Theorem prototype_keeps_its_shape (weights : list R) (stepSize : R)
    (cs : list (call R)) :
  1 ≤ length weights →
  ∃ AF obs AF' weights',
    Matlab.new (Matlab.column weights) (Matlab.scalar stepSize) = Matlab.Ok AF ∧
    Matlab.drive cs AF = Some (obs, AF') ∧
    length obs = length cs ∧
    Matlab.Buffer AF'
      = Matlab.column (take (length weights)
                         (reverse (call_input <$> cs)
                          ++ replicate (length weights) 0%R)) ∧
    Matlab.Weights AF' = Matlab.column weights' ∧
    length weights' = length weights ∧
    Matlab.StepSize AF' = Matlab.scalar stepSize.
Proof.
  intros Hne.
  set (AF := Matlab.mkAdaptiveFir (Matlab.column (replicate (length weights) 0%R))
               (Matlab.column weights) (Matlab.scalar stepSize) Matlab.empty).
  assert (Matlab.new (Matlab.column weights) (Matlab.scalar stepSize) = Matlab.Ok AF)
    as Hnew.
  { unfold Matlab.new, Matlab.isvector, AF. cbn. rewrite orb_true_r. cbn.
    unfold Matlab.zeros, Matlab.colon, Matlab.column, Matlab.numel. cbn.
    by rewrite length_replicate, !Nat.mul_1_r. }
  destruct (prototype_drive cs AF (replicate (length weights) 0%R) weights stepSize)
    as (obs & AF' & weights' & Hdrive & Hobs & HB' & HW' & Hlen' & HS');
    [done|done|done|by rewrite length_replicate..|].
  rewrite length_replicate in HB', Hlen'.
  by exists AF, obs, AF', weights'.
Qed.
End Prototype.

Lemma prototype_keeps_its_shape_witness :
  ∃ AF obs AF',
    Matlab.new (Matlab.column [1; 2]%R) (Matlab.scalar 0.5%R) = Matlab.Ok AF ∧
    Matlab.drive [CallRun 3 4; CallRunErrorIn 5 6; CallRun 7 8]%R AF
      = Some (obs, AF') ∧
    Matlab.Buffer AF' = Matlab.column [7; 5]%R.
Proof.
  destruct (prototype_keeps_its_shape [1; 2]%R 0.5%R
              [CallRun 3 4; CallRunErrorIn 5 6; CallRun 7 8]%R)
    as (AF & obs & AF' & weights' & Hnew & Hdrive & _ & HB & _); [cbn; lia|].
  exists AF, obs, AF'. split; [exact Hnew|]. split; [exact Hdrive|exact HB].
Defined.

(** ** What leaves the weights alone *)

Section Invariance.
Implicit Types (s : AfData R) (k : call R) (c : R).

Lemma zip_with_nlms_frozen (stepSize regularization sn err : R) (weights win : list R) :
  stepSize = 0%R ∨ err = 0%R → length weights = length win →
  zip_with (nlms stepSize regularization sn err) weights win = weights.
Proof.
  intros Hz. revert win.
  induction weights as [|w weights IH]; intros [|x win] Hlen; try done.
  cbn [zip_with]. rewrite IH by (cbn in Hlen; lia). f_equal.
  unfold nlms. cbn [s_add s_mul s_div R_Scalar]. unfold Rdiv.
  destruct Hz as [-> | ->]; ring.
Qed.

(** One call with a step size of 0, or with an error input of 0. *)
Lemma frozen_step k s :
  wf s →
  StepSize s = 0%R ∨ (∃ input, k = CallRunErrorIn input 0%R) →
  ∃ s',
    step k s = Some (inner (pWeights s)
                       (call_input k :: take (Length s - 1) (window s)), s') ∧
    wf s' ∧ Length s' = Length s ∧ StepSize s' = StepSize s ∧
    Regularization s' = Regularization s ∧
    pWeights s' = pWeights s ∧
    window s' = call_input k :: take (Length s - 1) (window s).
Proof.
  intros Hwf Hz. pose proof Hwf as ([HL _] & Hbuf & Hw).
  destruct (step_spec k s Hwf) as (output & s' & Hstep & Hwf' & HL' & HS' & HR' & Hwin').
  rewrite Hstep. destruct k as [input desired|input error]; cbn [step call_input] in *.
  - destruct Hz as [Hz|[? [=]]].
    rewrite Run_spec in Hstep by done. cbn zeta in Hstep.
    injection Hstep as <- <-.
    assert (dot (pWeights s) (window (after_insert input s))
            = inner (pWeights s) (input :: take (Length s - 1) (window s)))
      as Hout by (by rewrite dot_inner, (window_after_insert input s Hwf)).
    eexists. split; [rewrite <- Hout; reflexivity|]. split_and!; try done.
    unfold after_adapt. cbn [pWeights set_BufferIdx set_pWeights].
    change (pWeights (set_Error ?e (after_insert input s))) with (pWeights s).
    change (StepSize (set_Error ?e (after_insert input s))) with (StepSize s).
    apply zip_with_nlms_frozen; [by left|].
    change (window (set_Error ?e (after_insert input s)))
      with (window (after_insert input s)).
    rewrite length_window. cbn. rewrite length_insert. lia.
  - rewrite RunErrorIn_spec in Hstep by done. cbn zeta in Hstep.
    assert (pWeights (after_adapt (set_Error error s)) = pWeights s) as Hfrozen.
    { unfold after_adapt. cbn [pWeights set_BufferIdx set_pWeights].
      change (pWeights (set_Error error s)) with (pWeights s).
      apply zip_with_nlms_frozen.
      - destruct Hz as [Hz|[? [= _ ->]]]; [by left|by right].
      - change (window (set_Error error s)) with (window s).
        rewrite length_window. lia. }
    injection Hstep as <- <-.
    pose proof (wf_after_adapt _ (wf_set_Error error s Hwf)) as Hwf1.
    set (s1 := after_adapt (set_Error error s)) in *.
    assert (dot (pWeights s1) (window (after_insert input s1))
            = inner (pWeights s) (input :: take (Length s - 1) (window s)))
      as Hout.
    { rewrite dot_inner, Hfrozen, (window_after_insert input _ Hwf1).
      unfold s1. by rewrite window_after_adapt by done. }
    eexists. split; [rewrite <- Hout; reflexivity|]. split_and!; try done.
Qed.

(** X16.  A step size of 0, or an error input of 0 in every call, makes the engine
    a plain FIR filter: the weights never change, and every output is the
    inner product of these weights with the window of that call.  The
    regularization is positive, so that no update divides by zero. *)
Theorem frozen_weights_make_a_plain_filter (cs : list (call R)) s :
  wf s →
  (0 < Regularization s)%R →
  StepSize s = 0%R ∨ Forall (λ k, ∃ input, k = CallRunErrorIn input 0%R) cs →
  ∃ obs s',
    drive cs s = Some (obs, s') ∧
    length obs = length cs ∧
    pWeights s' = pWeights s ∧
    ∀ i (o : observation R), obs !! i = Some o →
      o.2 = pWeights s ∧
      o.1.1 = inner (pWeights s)
                (take (Length s)
                   (reverse (take (S i) (call_input <$> cs)) ++ window s)).
Proof.
  revert s. induction cs as [|k cs IH]; intros s Hwf Hreg Hz.
  - exists [], s. split_and!; try done.
  - pose proof Hwf as ([HL _] & Hbuf & Hw).
    destruct (frozen_step k s Hwf) as (s1 & Hstep & Hwf1 & HL1 & HS1 & HR1 & HW1 & Hwin1).
    { destruct Hz as [Hz|Hz]; [by left|right]. by inversion Hz. }
    destruct (IH s1 Hwf1) as (obs & s' & Hdrive & Hlen & HW' & Hobs).
    { by rewrite HR1. }
    { destruct Hz as [Hz|Hz]; [left; congruence|right]. by inversion Hz. }
    cbn [drive]. rewrite Hstep. cbn [mbind option_bind]. rewrite Hdrive.
    cbn [mbind option_bind]. eexists _, s'. split; [reflexivity|].
    split_and!; [cbn; lia|congruence|].
    intros [|i] o Ho.
    + injection Ho as <-. cbn [fst snd]. split; [done|].
      f_equal. rewrite fmap_cons. cbn [take]. rewrite take_0.
      change (reverse [call_input k]) with [call_input k]. cbn [app take].
      destruct (Length s) as [|n]; [lia|]. cbn [take].
      by replace (S n - 1) with n by lia.
    + cbn [lookup list_lookup] in Ho. destruct (Hobs i o Ho) as [Ho2 Ho1].
      split; [congruence|]. rewrite Ho1, HW1, HL1, Hwin1. f_equal.
      rewrite fmap_cons. cbn [take]. rewrite reverse_cons.
      rewrite (cons_middle (call_input k)), app_assoc.
      apply take_app_take. rewrite length_app. cbn. lia.
Qed.

Lemma wf_scaled c s : wf s → wf (scaled c s).
Proof. unfold wf, scaled. cbn. by rewrite length_fmap. Qed.

Lemma window_scaled c s : window (scaled c s) = Rmult c <$> window s.
Proof.
  unfold window, oldest_first, rot, scaled. cbn [Length BufferIdx pBuffer].
  by rewrite fmap_reverse, fmap_app, fmap_drop, fmap_take.
Qed.

Lemma after_insert_scaled c (input : R) s :
  after_insert (c * input)%R (scaled c s) = scaled c (after_insert input s).
Proof.
  unfold after_insert, scaled, set_BufferIdx, set_pBuffer.
  cbn [Length BufferIdx pBuffer StepSize Regularization pWeights Error].
  by rewrite list_fmap_insert.
Qed.

Lemma inner_scaled c (weights win : list R) :
  inner weights (Rmult c <$> win) = (c * inner weights win)%R.
Proof.
  revert win. induction weights as [|w weights IH]; intros [|x win].
  1-3: unfold inner, sum_R; cbn; lra.
  rewrite fmap_cons, !inner_cons, IH. lra.
Qed.

Lemma after_adapt_scaled c s :
  wf s → (0 < Regularization s)%R → c ≠ 0%R →
  after_adapt (scaled c s) = scaled c (after_adapt s).
Proof.
  intros Hwf Hreg Hc. unfold after_adapt.
  rewrite window_scaled, zip_with_fmap_r.
  unfold scaled at 1 2 3 4 5 6 7 8. unfold scaled at 2.
  unfold set_BufferIdx, set_pWeights.
  cbn [Length BufferIdx pBuffer StepSize Regularization pWeights Error].
  unfold scaled. cbn [Length BufferIdx pBuffer StepSize Regularization pWeights Error].
  f_equal. apply zip_with_ext; [|done..]. intros w x.
  unfold energy. rewrite !foldl_energy, inner_scaled.
  assert (inner (Rmult c <$> pBuffer s) (pBuffer s)
          = (c * inner (pBuffer s) (pBuffer s))%R) as Hcomm.
  { generalize (pBuffer s). intros l. induction l as [|y l IHl]; [unfold inner, sum_R; cbn; lra|].
    rewrite fmap_cons, !inner_cons, IHl. lra. }
  rewrite Hcomm.
  pose proof (inner_self_nonneg (pBuffer s)) as Hnn.
  assert (0 < c * c)%R as Hcc
    by (destruct (Rtotal_order c 0) as [?|[?|?]]; [nra|done|nra]).
  unfold nlms. cbn [s_add s_mul s_div s_zero R_Scalar]. field.
  split; apply Rgt_not_eq; nra.
Qed.

Lemma scaled_step c k s :
  wf s → (0 < Regularization s)%R → c ≠ 0%R →
  ∃ output s',
    step k s = Some (output, s') ∧
    step (scaled_call c k) (scaled c s) = Some ((c * output)%R, scaled c s') ∧
    wf s' ∧ Regularization s' = Regularization s.
Proof.
  intros Hwf Hreg Hc. pose proof (wf_scaled c s Hwf) as Hwfc.
  destruct k as [input desired|input error]; cbn [step scaled_call].
  - rewrite !Run_spec by done. cbn zeta. eexists _, _. split; [reflexivity|].
    split_and!; [|by apply wf_after_adapt, wf_set_Error, wf_after_insert|done].
    rewrite after_insert_scaled, window_scaled.
    change (pWeights (scaled c s)) with (pWeights s).
    rewrite !dot_inner, inner_scaled. f_equal. f_equal.
    rewrite <- after_adapt_scaled;
      [|by apply wf_set_Error, wf_after_insert|done|done].
    f_equal. unfold set_Error, scaled.
    cbn [Length BufferIdx pBuffer StepSize Regularization pWeights Error].
    f_equal. cbn [s_sub R_Scalar]. lra.
  - rewrite !RunErrorIn_spec by done. cbn zeta.
    change (set_Error (c * error)%R (scaled c s)) with (scaled c (set_Error error s)).
    rewrite after_adapt_scaled by (done || by apply wf_set_Error).
    rewrite after_insert_scaled, window_scaled.
    change (pWeights (scaled c ?t)) with (pWeights t).
    rewrite !dot_inner, inner_scaled.
    eexists _, _. split; [reflexivity|].
    split_and!; [done|by apply wf_after_insert, wf_after_adapt, wf_set_Error|done].
Qed.

(** X17.  The update is normalized: multiply every signal by a constant [c] that
    is not 0 (the samples already in the buffer, the inputs, the desired
    samples, the error inputs) and the regularization by [c * c], and the
    engine goes through the same weights; its outputs and errors are
    multiplied by [c]. *)
Theorem scaling_the_signals_keeps_the_weights c (cs : list (call R)) s :
  wf s → (0 < Regularization s)%R → c ≠ 0%R →
  ∃ obs s',
    drive cs s = Some (obs, s') ∧
    drive (scaled_call c <$> cs) (scaled c s)
      = Some (scaled_observation c <$> obs, scaled c s').
Proof.
  intros Hwf Hreg Hc. revert s Hwf Hreg.
  induction cs as [|k cs IH]; intros s Hwf Hreg.
  - by exists [], s.
  - destruct (scaled_step c k s Hwf Hreg Hc)
      as (output & s1 & Hstep & Hstepc & Hwf1 & HR1).
    destruct (IH s1 Hwf1) as (obs & s' & Hdrive & Hdrivec); [by rewrite HR1|].
    rewrite fmap_cons. cbn [drive]. rewrite Hstep, Hstepc.
    cbn [mbind option_bind]. rewrite Hdrive, Hdrivec.
    cbn [mbind option_bind]. eexists _, s'. split; reflexivity.
Qed.
End Invariance.

Lemma frozen_weights_make_a_plain_filter_witness :
  ∃ obs s',
    drive [CallRunErrorIn 1 0; CallRunErrorIn 2 0]%R
      (mkAfData 0.5 1 2 [0; 0] 0 [3; 4] 0)%R = Some (obs, s') ∧
    pWeights s' = [3; 4]%R.
Proof.
  destruct (frozen_weights_make_a_plain_filter
              [CallRunErrorIn 1 0; CallRunErrorIn 2 0]%R
              (mkAfData 0.5 1 2 [0; 0] 0 [3; 4] 0)%R)
    as (obs & s' & Hdrive & _ & HW & _).
  - unfold wf. split_and!; [solve_taps|done..].
  - cbn. lra.
  - right. repeat constructor; eexists; reflexivity.
  - exists obs, s'. split; [exact Hdrive|exact HW].
Defined.

Lemma scaling_the_signals_keeps_the_weights_witness :
  ∃ obs s',
    drive [CallRun 1 2; CallRunErrorIn 3 4]%R
      (mkAfData 0.5 1 2 [0; 0] 0 [3; 4] 0)%R = Some (obs, s') ∧
    drive (scaled_call 2 <$> [CallRun 1 2; CallRunErrorIn 3 4])%R
      (scaled 2 (mkAfData 0.5 1 2 [0; 0] 0 [3; 4] 0))%R
      = Some (scaled_observation 2 <$> obs, scaled 2 s').
Proof.
  apply (scaling_the_signals_keeps_the_weights 2
           [CallRun 1 2; CallRunErrorIn 3 4]%R
           (mkAfData 0.5 1 2 [0; 0] 0 [3; 4] 0)%R).
  - unfold wf. split_and!; [solve_taps|done..].
  - cbn. lra.
  - lra.
Defined.

(** ** The Matlab test *)

Section MatlabTest.
Implicit Types (Weights noise : list R) (cst : AfData R) (m : Matlab.AdaptiveFir).

Lemma norm_squared (v : list R) : (AdaptiveFirTest.norm v ^ 2 = inner v v)%R.
Proof.
  unfold AdaptiveFirTest.norm. rewrite sum_squares.
  pose proof (inner_self_nonneg v) as Hnn.
  cbn [pow]. rewrite Rmult_1_r. by apply sqrt_sqrt.
Qed.

Lemma sqdist_zeros (w : list R) :
  sqdist w (replicate (length w) 0%R) = inner w w.
Proof.
  unfold sqdist.
  assert (zip_with Rminus w (replicate (length w) 0%R) = w) as ->; [|done].
  induction w as [|a w IH]; [done|].
  cbn [length replicate zip_with]. rewrite IH. f_equal. lra.
Qed.

Lemma Run_loop_spec Weights noise : ∀ cst m,
  same_state cst m → length Weights = Length cst →
  (0 <= StepSize cst <= 2)%R →
  ∃ adaptiveOut weightError,
    AdaptiveFirTest.Run_loop Weights m noise
      (AdaptiveFirTest.filter_from Weights (window cst) noise)
      = Some (adaptiveOut, weightError) ∧
    length weightError = length noise ∧
    Forall (λ a, 0 <= a <= sqdist Weights (pWeights cst))%R weightError ∧
    (∀ j a b, weightError !! j = Some a → weightError !! S j = Some b →
              (b <= a)%R).
Proof.
  induction noise as [|x noise IH]; intros cst m Hsame HW Hstep.
  - exists [], []. split_and!; try done.
  - pose proof Hsame as (Hwf & Hreg & HB & HWm & HS).
    pose proof Hwf as ([HL _] & Hbuf & Hw).
    assert (x :: removelast (window cst) = x :: take (Length cst - 1) (window cst))
      as Hshift.
    { rewrite removelast_firstn_len, length_window, Hbuf. by rewrite Nat.sub_1_r. }
    cbn [AdaptiveFirTest.filter_from]. cbn zeta. rewrite Hshift.
    set (win := x :: take (Length cst - 1) (window cst)).
    destruct (Run_towards_target cst Weights x Hwf HW Hstep)
      as (output & cst1 & Hrun & Hwf1 & HL1 & HS1 & HR1 & Hwin1 & Hle);
      [rewrite Hreg; unfold Matlab.epsilon; lra|].
    fold win in Hrun, Hwin1.
    destruct (step_refines (CallRun x (inner Weights win)) cst m Hsame)
      as (output' & cst1' & m1 & Hrun' & Hmrun & Hsame1 & _).
    rewrite Hrun in Hrun'. injection Hrun' as <- <-.
    cbn [Matlab.step] in Hmrun.
    destruct (IH cst1 m1 Hsame1) as (outs & wes & Hloop & Hlen & Hall & Hchain);
      [congruence|by rewrite HS1|].
    rewrite Hwin1 in Hloop.
    cbn [AdaptiveFirTest.Run_loop]. rewrite Hmrun. cbn [mbind option_bind].
    destruct Hsame1 as (_ & _ & _ & HWm1 & _).
    rewrite HWm1, as_column_column. cbn [mbind option_bind].
    destruct Hwf1 as (_ & _ & Hw1).
    rewrite decide_True by congruence.
    rewrite Hloop. cbn [mbind option_bind].
    rewrite norm_squared. fold (sqdist Weights (pWeights cst1)).
    pose proof (inner_self_nonneg (zip_with Rminus Weights (pWeights cst1))) as Hnn.
    fold (sqdist Weights (pWeights cst1)) in Hnn.
    eexists _, _. split; [reflexivity|]. split_and!.
    + cbn. lia.
    + apply Forall_cons. split; [lra|].
      eapply Forall_impl; [exact Hall|]. cbn. intros a Ha. lra.
    + intros [|j] a b Ha Hb.
      * injection Ha as <-. cbn [lookup list_lookup] in Hb.
        destruct wes as [|b' wes]; [done|]. injection Hb as ->.
        apply Forall_cons in Hall as [Hb _]. lra.
      * cbn [lookup list_lookup] in Ha, Hb. by apply (Hchain j).
Qed.

(** X18.  The Matlab test in exact arithmetic, for whatever [rand] returns
    (test weights that are not all 0, any noise).  [Run] gets through its
    loop, and the misalignment it plots starts at no more than 1, stays
    between 0 and 1 and never increases from one iteration to the next. *)
Theorem the_misalignment_never_grows Weights noise :
  taps_ok (length Weights) →
  (0 < inner Weights Weights)%R →
  ∃ misalignment squaredError,
    AdaptiveFirTest.Run Weights noise = Some (misalignment, squaredError) ∧
    length misalignment = length noise ∧
    Forall (λ a, 0 <= a <= 1)%R misalignment ∧
    (∀ j a b, misalignment !! j = Some a → misalignment !! S j = Some b →
              (b <= a)%R).
Proof.
  intros Htaps Hpos. unfold AdaptiveFirTest.Run. cbn zeta.
  destruct (new_same_state (replicate (length Weights) 0%R) AdaptiveFirTest.StepSize)
    as (m & Hnew & Hsame); [by rewrite length_replicate|].
  rewrite length_replicate in Hsame.
  assert (Matlab.zeros (length Weights) 1
          = Matlab.column (replicate (length Weights) 0%R)) as ->.
  { unfold Matlab.zeros, Matlab.column. by rewrite length_replicate, Nat.mul_1_r. }
  rewrite Hnew.
  set (cst := mkAfData AdaptiveFirTest.StepSize Matlab.epsilon (length Weights)
                (replicate (length Weights) 0%R) 0
                (replicate (length Weights) 0%R) 0%R) in *.
  destruct (Run_loop_spec Weights noise cst m Hsame)
    as (outs & wes & Hloop & Hlen & Hall & Hchain);
    [done|cbn; unfold AdaptiveFirTest.StepSize; lra|].
  assert (window cst = replicate (length Weights) 0%R) as Hwin.
  { unfold cst. rewrite window_zero by (cbn; by rewrite ?length_replicate). done. }
  rewrite Hwin in Hloop. unfold AdaptiveFirTest.filter. rewrite Hloop.
  cbn [mbind option_bind]. eexists _, _. split; [reflexivity|].
  rewrite norm_squared.
  assert (sqdist Weights (pWeights cst) = inner Weights Weights) as Hinit
    by apply sqdist_zeros.
  rewrite Hinit in Hall.
  pose proof (Rinv_0_lt_compat _ Hpos) as Hinv.
  split_and!.
  - by rewrite length_map.
  - apply Forall_fmap. eapply Forall_impl; [exact Hall|]. cbn. intros a [Ha0 Ha1].
    unfold Rdiv. split; [nra|].
    apply Rmult_le_reg_r with (inner Weights Weights); [done|].
    rewrite Rmult_assoc, Rinv_l by lra. lra.
  - intros j a b Ha Hb. rewrite list_lookup_fmap in Ha, Hb.
    destruct (wes !! j) as [a'|] eqn:Ha'; [|done].
    destruct (wes !! S j) as [b'|] eqn:Hb'; [|done].
    injection Ha as <-. injection Hb as <-.
    pose proof (Hchain j a' b' Ha' Hb'). unfold Rdiv. nra.
Qed.
End MatlabTest.

Lemma the_misalignment_never_grows_witness :
  ∃ misalignment squaredError,
    AdaptiveFirTest.Run [1; -1]%R [1; 2; 3]%R = Some (misalignment, squaredError) ∧
    length misalignment = 3.
Proof.
  destruct (the_misalignment_never_grows [1; -1]%R [1; 2; 3]%R)
    as (mis & se & Hrun & Hlen & _).
  - solve_taps.
  - unfold inner, sum_R. cbn. lra.
  - exists mis, se. split; [exact Hrun|exact Hlen].
Defined.
